(** * nextcore: the limited global rate limiter

    A shallow embedding of [nextcore/http/global_rate_limiter/limited.py]
    (class [LimitedGlobalRateLimiter]) and the properties of its admission,
    queueing and replenishment logic.

    Python integers are unbounded, so counters are in [Z].  The limiter runs
    on one asyncio event loop: a coroutine runs without interruption between
    two suspension points, so each stretch of code between suspension points
    is one atomic transition of the state. *)

From Stdlib Require Import ZArith List Bool Lia Permutation Sorted.
Import ListNotations.
Local Open Scope Z_scope.

(* ================================================================== *)
(** * Data model *)
(* ================================================================== *)

(** An [asyncio.Future[None]] is known by its identity; the loop keeps the
    list of the futures whose result has been set. *)
Definition Future := nat.

(** A Python [float] is only handed to the logger here; it is represented
    by its IEEE 754 binary64 bit pattern. *)
Definition float := Z.

(** Modelled from the spec: [priority_request_container.py], the class
    [PriorityRequestContainer] and its ordering are not among the sources
    (only the constructor call [PriorityRequestContainer(priority, future)]
    and the read of [.future] are).  The spec's QueueEntry has a priority
    (lower value served first), a sequence (a monotonic insertion counter
    that breaks priority ties in FIFO order) and a completion handle. *)
Record PriorityRequestContainer := mkContainer {
  priority : Z;
  sequence : nat;
  future : Future
}.

(** Modelled from the spec: the ordering of queue entries, which the
    missing class defines: priority first, then the insertion sequence. *)
Definition container_lt (a b : PriorityRequestContainer) : bool :=
  (priority a <? priority b)
  || ((priority a =? priority b) && (sequence a <? sequence b)%nat).

(** [queue.PriorityQueue] of the standard library, by its contract: the
    queue holds a bag of entries and [get_nowait] removes the least one.
    The internal layout (a binary heap there, a list here, newest first) is
    not observable when no two entries compare equal (lemma
    [get_nowait_layout]). *)
Module PriorityQueue.

Definition t := list PriorityRequestContainer.

Definition empty : t := [].

Definition qsize (q : t) : Z := Z.of_nat (length q).

Definition put_nowait (item : PriorityRequestContainer) (q : t) : t :=
  item :: q.

(** [extract_min x q] is the least entry of [x :: q] and the others. *)
Fixpoint extract_min (x : PriorityRequestContainer) (q : t)
  : PriorityRequestContainer * t :=
  match q with
  | [] => (x, [])
  | y :: q' =>
      if container_lt y x
      then let (m, r) := extract_min y q' in (m, x :: r)
      else let (m, r) := extract_min x q' in (m, y :: r)
  end.

(** [None] stands for the exception [queue.Empty]. *)
Definition get_nowait (q : t) : option (PriorityRequestContainer * t) :=
  match q with
  | [] => None
  | x :: q' => Some (extract_min x q')
  end.

(** [n] successive [get_nowait]: the entries in the order they come out,
    and what is left. *)
Fixpoint take (n : nat) (q : t) : option (list PriorityRequestContainer * t) :=
  match n with
  | O => Some ([], q)
  | S n' =>
      match get_nowait q with
      | None => None
      | Some (c, q') =>
          match take n' q' with
          | None => None
          | Some (cs, q'') => Some (c :: cs, q'')
          end
      end
  end.

End PriorityQueue.

(** The records the module's logger receives. *)
Inductive LogRecord :=
| debug_calculated_remaining (calculated_remaining : Z)
| debug_reserved_requests (reserved : Z)
| debug_added_to_queue (priority : Z)
| debug_out_of_queue
| debug_releasing (to_release : Z)
| warning_exceeded (retry_after : float).

(** The fields of a [LimitedGlobalRateLimiter]. *)
Record LimitedGlobalRateLimiter := mkLimiter {
  limit : Z;
  remaining : Z;
  _pending_requests : PriorityQueue.t;
  _reserved_requests : Z;
  _pending_reset : bool
}.

(** What the limiter's methods reach outside the object: the running loop
    (the pending [call_later (1, self._reset)] handles), the futures (those
    that have a result and those that were cancelled; the others are
    pending), the allocation of fresh futures, the insertion counter of
    the queue entries (modelled from the spec, see [new_container]), and
    the logger. *)
Record Environment := mkEnv {
  timers : nat;
  resolved : list Future;
  cancelled : list Future;
  next_future : Future;
  next_sequence : nat;
  log : list LogRecord
}.

Record State := mkState {
  self : LimitedGlobalRateLimiter;
  env : Environment
}.

(** ** Outcomes *)

(** What a piece of code can end with besides a value: an exception.
    [CancelledError] and [GeneratorExit] are what a cancelled or closed
    caller receives, [InvalidStateError] is what [Future.set_result]
    raises on a future that is done, [Empty] is [queue.Empty], and
    [Exception] stands for the errors of the gated operation. *)
Inductive BaseException :=
| CancelledError
| GeneratorExit
| InvalidStateError
| Empty
| Exception (id : nat).

Inductive Outcome (A : Type) :=
| Returned (a : A)
| Raised (e : BaseException).

Arguments Returned {A} a.
Arguments Raised {A} e.

(** A block of code: it may change the state, and returns or raises. *)
Definition Block (A : Type) := State -> Outcome A * State.

(** ** Field updates *)

Definition set_remaining (v : Z) (st : State) : State :=
  let s := self st in
  mkState (mkLimiter (limit s) v (_pending_requests s) (_reserved_requests s)
             (_pending_reset s)) (env st).

Definition set_pending_requests (q : PriorityQueue.t) (st : State) : State :=
  let s := self st in
  mkState (mkLimiter (limit s) (remaining s) q (_reserved_requests s)
             (_pending_reset s)) (env st).

Definition set_reserved_requests (v : Z) (st : State) : State :=
  let s := self st in
  mkState (mkLimiter (limit s) (remaining s) (_pending_requests s) v
             (_pending_reset s)) (env st).

Definition set_pending_reset (b : bool) (st : State) : State :=
  let s := self st in
  mkState (mkLimiter (limit s) (remaining s) (_pending_requests s)
             (_reserved_requests s) b) (env st).

(** [logger.debug] and [logger.warning]. *)
Definition emit (r : LogRecord) (st : State) : State :=
  let e := env st in
  mkState (self st)
    (mkEnv (timers e) (resolved e) (cancelled e) (next_future e)
       (next_sequence e) (log e ++ [r])).

(** [get_running_loop().call_later(1, self._reset)]: one more pending
    handle. *)
Definition call_later_reset (st : State) : State :=
  let e := env st in
  mkState (self st)
    (mkEnv (S (timers e)) (resolved e) (cancelled e) (next_future e)
       (next_sequence e) (log e)).

(** [Future()]: a fresh future, pending. *)
Definition new_future (st : State) : Future * State :=
  let e := env st in
  (next_future e,
   mkState (self st)
     (mkEnv (timers e) (resolved e) (cancelled e) (S (next_future e))
        (next_sequence e) (log e))).

(** Modelled from the spec: the constructor of the missing class,
    [PriorityRequestContainer(priority, future)].  The call passes no
    sequence number; the entry takes the next value of the spec's
    monotonic insertion counter. *)
Definition new_container (p : Z) (f : Future) (st : State)
  : PriorityRequestContainer * State :=
  let e := env st in
  (mkContainer p (next_sequence e) f,
   mkState (self st)
     (mkEnv (timers e) (resolved e) (cancelled e) (next_future e)
        (S (next_sequence e)) (log e))).

Definition mem (f : Future) (l : list Future) : bool :=
  existsb (Nat.eqb f) l.

(** [future.done()]: the future has a result or was cancelled. *)
Definition future_done (e : Environment) (f : Future) : bool :=
  mem f (resolved e) || mem f (cancelled e).

(** [future.set_result(None)]: raises [InvalidStateError] when the future
    is done, and gives a pending future its result. *)
Definition set_result (f : Future) : Block unit :=
  fun st =>
    let e := env st in
    if future_done e f then (Raised InvalidStateError, st)
    else
      (Returned tt,
       mkState (self st)
         (mkEnv (timers e) (resolved e ++ [f]) (cancelled e) (next_future e)
            (next_sequence e) (log e))).

(* ================================================================== *)
(** * The methods *)
(* ================================================================== *)

(** [LimitedGlobalRateLimiter.__init__]; the parameter's default is 50. *)
Definition default_limit : Z := 50.

Definition __init__ (limit : Z) : LimitedGlobalRateLimiter :=
  {| limit := limit;
     remaining := 50;
     _pending_requests := PriorityQueue.empty;
     _reserved_requests := 0;
     _pending_reset := false |}.

(** ** acquire

    [acquire] is an asynchronous context manager.  It is cut at its
    suspension points: [acquire_enter] runs from the call to either the
    [await future] of the queued branch or the [yield]; [acquire_resume]
    runs from the wake-up of a queued caller to the [yield]; [acquire_exit]
    is the [finally] block.  The [await future] stands before the [try]:
    a caller cancelled there leaves [acquire] without any bookkeeping. *)

Inductive AcquireStatus :=
| Granted
| Suspended (f : Future).

(** [self._reserved_requests += 1] *)
Definition reserve (st : State) : State :=
  set_reserved_requests (_reserved_requests (self st) + 1) st.

Definition acquire_enter (priority : Z) (st : State) : AcquireStatus * State :=
  let calculated_remaining :=
    remaining (self st) - _reserved_requests (self st) in
  let st := emit (debug_calculated_remaining calculated_remaining) st in
  let st := emit (debug_reserved_requests (_reserved_requests (self st))) st in
  if calculated_remaining =? 0 then
    let (future, st) := new_future st in
    let (item, st) := new_container priority future st in
    let st :=
      set_pending_requests
        (PriorityQueue.put_nowait item (_pending_requests (self st))) st in
    let st := emit (debug_added_to_queue priority) st in
    (Suspended future, st)
  else
    (Granted, reserve st).

Definition acquire_resume (st : State) : State :=
  let st := emit debug_out_of_queue st in
  reserve st.

Definition acquire_exit (st : State) : State :=
  let st :=
    if negb (_pending_reset (self st)) then
      let st := set_pending_reset true st in
      call_later_reset st
    else st in
  let st := set_reserved_requests (_reserved_requests (self st) - 1) st in
  set_remaining (remaining (self st) - 1) st.

(** ** _reset *)

(** The body of [for _ in range(to_release)], [n] times.  An exception of
    [get_nowait] or of [set_result] ends the loop where it is raised, with
    the entry already out of the queue in the second case.  [task_done]
    only counts down the queue's unfinished-task counter, which nothing
    reads; it follows a [get_nowait] each time, so the counter is positive
    and [task_done] does not raise. *)
Fixpoint release_loop (n : nat) (st : State) : Outcome unit * State :=
  match n with
  | O => (Returned tt, st)
  | S n' =>
      match PriorityQueue.get_nowait (_pending_requests (self st)) with
      | None => (Raised Empty, st)
      | Some (container, q) =>
          let st := set_pending_requests q st in
          let future := future container in
          match set_result future st with
          | (Raised e, st) => (Raised e, st)
          | (Returned _, st) => release_loop n' st
          end
      end
  end.

(** [min(self._pending_requests.qsize(), self.remaining - self._reserved_requests)]
    as [_reset] computes it, after [remaining] became [limit]. *)
Definition to_release (st : State) : Z :=
  Z.min (PriorityQueue.qsize (_pending_requests (self st)))
        (limit (self st) - _reserved_requests (self st)).

(** [range(n)] runs [max(0, n)] times. *)
Definition range_len (n : Z) : nat := Z.to_nat n.

Definition _reset : Block unit :=
  fun st =>
    let st := set_pending_reset false st in
    let st := set_remaining (limit (self st)) st in
    let to_release :=
      Z.min (PriorityQueue.qsize (_pending_requests (self st)))
            (remaining (self st) - _reserved_requests (self st)) in
    let st := emit (debug_releasing to_release) st in
    match release_loop (range_len to_release) st with
    | (Raised e, st) => (Raised e, st)
    | (Returned _, st) =>
        if negb (PriorityQueue.qsize (_pending_requests (self st)) =? 0) then
          let st := set_pending_reset true st in
          (Returned tt, call_later_reset st)
        else (Returned tt, st)
    end.

(** ** update *)

Definition update (retry_after : float) (st : State) : State :=
  emit (warning_exceeded retry_after) st.

(** [n] calls of [update], with the durations [rs]. *)
Definition updates (rs : list float) (st : State) : State :=
  fold_left (fun st r => update r st) rs st.

(* ================================================================== *)
(** * The scope of an admitted caller *)
(* ================================================================== *)

(** [try: body finally: fin].  The finaliser runs on both outcomes; the
    body's outcome stands unless the finaliser itself raises. *)
Definition try_finally {A : Type} (body : Block A) (fin : Block unit)
  : Block A :=
  fun st =>
    let (o, st1) := body st in
    match fin st1 with
    | (Returned _, st2) => (o, st2)
    | (Raised e, st2) => (Raised e, st2)
    end.

Definition finally_block : Block unit :=
  fun st => (Returned tt, acquire_exit st).

(** [acquire] from the admission on, with the caller's block in the place
    of the [yield]. *)
Definition acquire_scope {A : Type} (body : Block A) : Block A :=
  fun st => try_finally body finally_block (reserve st).

(* ================================================================== *)
(** * Executions *)
(* ================================================================== *)

(** The limiter with its callers: the futures that queued callers await
    and the number of callers inside the scope (suspended at the
    [yield]). *)
Record World := mkWorld {
  state : State;
  awaiting : list Future;
  in_scope : nat
}.

(** What happens on the loop: a caller calls [acquire]; a released caller
    resumes; a caller leaves the scope (normally or by an exception thrown
    at the [yield]); a pending timer fires; [update] is called; a caller
    that waits at [await future] is cancelled. *)
Inductive Event :=
| ev_acquire (priority : Z)
| ev_resume (f : Future)
| ev_exit
| ev_timer
| ev_update (retry_after : float)
| ev_cancel (f : Future).

Definition forget (f : Future) (l : list Future) : list Future :=
  filter (fun g => negb (Nat.eqb f g)) l.

(** The loop takes a pending handle off its schedule before it runs it. *)
Definition pop_timer (st : State) : option State :=
  let e := env st in
  match timers e with
  | O => None
  | S n =>
      Some (mkState (self st)
              (mkEnv n (resolved e) (cancelled e) (next_future e)
                 (next_sequence e) (log e)))
  end.

(** The cancellation of the task that awaits [f]: it cancels the future
    when the future is still pending (a future with a result stays as it
    is), and [CancelledError] reaches the caller at [await future]. *)
Definition cancel_waiter (f : Future) (st : State) : State :=
  let e := env st in
  if future_done e f then st
  else
    mkState (self st)
      (mkEnv (timers e) (resolved e) (cancelled e ++ [f]) (next_future e)
         (next_sequence e) (log e)).

(** One atomic transition; [None] when the event cannot happen in [w]:
    only a caller whose future has a result resumes, only a caller inside
    the scope leaves it, only a pending timer fires, only a caller that
    waits is cancelled there.  An exception that leaves [_reset] ends in
    the loop's exception handler: the loop goes on with the state as the
    callback left it. *)
Definition step (w : World) (e : Event) : option World :=
  match e with
  | ev_acquire p =>
      match acquire_enter p (state w) with
      | (Granted, st) => Some (mkWorld st (awaiting w) (S (in_scope w)))
      | (Suspended f, st) => Some (mkWorld st (f :: awaiting w) (in_scope w))
      end
  | ev_resume f =>
      if mem f (awaiting w) && mem f (resolved (env (state w))) then
        Some (mkWorld (acquire_resume (state w)) (forget f (awaiting w))
                (S (in_scope w)))
      else None
  | ev_exit =>
      match in_scope w with
      | O => None
      | S n => Some (mkWorld (acquire_exit (state w)) (awaiting w) n)
      end
  | ev_timer =>
      match pop_timer (state w) with
      | None => None
      | Some st =>
          Some (mkWorld (snd (_reset st)) (awaiting w) (in_scope w))
      end
  | ev_update r => Some (mkWorld (update r (state w)) (awaiting w) (in_scope w))
  | ev_cancel f =>
      if mem f (awaiting w) then
        Some (mkWorld (cancel_waiter f (state w)) (forget f (awaiting w))
                (in_scope w))
      else None
  end.

Fixpoint run (w : World) (es : list Event) : option World :=
  match es with
  | [] => Some w
  | e :: es' =>
      match step w e with
      | None => None
      | Some w' => run w' es'
      end
  end.

(** An idle loop: no handle pending, no future made yet, an empty log. *)
Definition idle : Environment := mkEnv 0%nat [] [] 0%nat 0%nat [].

(** A fresh limiter on an idle loop. *)
Definition boot (limit : Z) : World :=
  mkWorld (mkState (__init__ limit) idle) [] 0%nat.

Definition reachable (limit : Z) (w : World) : Prop :=
  exists es, run (boot limit) es = Some w.

(* ================================================================== *)
(** * Notions for the statements *)
(* ================================================================== *)

Definition reservedCount (st : State) : Z := _reserved_requests (self st).
Definition waitQueue (st : State) : PriorityQueue.t := _pending_requests (self st).
Definition pendingReset (st : State) : bool := _pending_reset (self st).
Definition available (st : State) : Z :=
  remaining (self st) - _reserved_requests (self st).

(** [a] is served before [b]: lower priority value first, and among equal
    priorities the earlier insertion first. *)
Definition precedes (a b : PriorityRequestContainer) : Prop :=
  priority a < priority b
  \/ (priority a = priority b /\ (sequence a < sequence b)%nat).

(** [a] does not come after [b]. *)
Definition not_after (a b : PriorityRequestContainer) : Prop :=
  ~ precedes b a.

(** The sequence numbers of the queue are pairwise different. *)
Definition distinct (q : PriorityQueue.t) : Prop := NoDup (map sequence q).

(** The future of the entry is pending in [e]. *)
Definition pending (e : Environment) (c : PriorityRequestContainer) : Prop :=
  future_done e (future c) = false.

(** The state after the entries [cs] came out of the queue, [q'] stayed,
    and the futures of [cs] were given their result. *)
Definition after_release (cs : list PriorityRequestContainer)
  (q' : PriorityQueue.t) (st : State) : State :=
  let s := self st in
  let e := env st in
  mkState
    (mkLimiter (limit s) (remaining s) q' (_reserved_requests s)
       (_pending_reset s))
    (mkEnv (timers e) (resolved e ++ map future cs) (cancelled e)
       (next_future e) (next_sequence e) (log e)).

(** The state [_reset] returns when [cs] came out and [q'] stayed. *)
Definition after_reset (cs : list PriorityRequestContainer)
  (q' : PriorityQueue.t) (st : State) : State :=
  let s := self st in
  let e := env st in
  let rearm := negb (PriorityQueue.qsize q' =? 0) in
  mkState
    (mkLimiter (limit s) (limit s) q' (_reserved_requests s) rearm)
    (mkEnv (if rearm then S (timers e) else timers e)
       (resolved e ++ map future cs) (cancelled e) (next_future e)
       (next_sequence e) (log e ++ [debug_releasing (to_release st)])).

(** The state in which an exception leaves [_reset], when the futures of
    [cs] got their result before and [q'] is what the queue still holds:
    the flag is clear and no timer was scheduled. *)
Definition after_raise (cs : list PriorityRequestContainer)
  (q' : PriorityQueue.t) (st : State) : State :=
  let s := self st in
  let e := env st in
  mkState
    (mkLimiter (limit s) (limit s) q' (_reserved_requests s) false)
    (mkEnv (timers e) (resolved e ++ map future cs) (cancelled e)
       (next_future e) (next_sequence e)
       (log e ++ [debug_releasing (to_release st)])).

(** What every execution keeps: the reservation counter counts the callers
    inside the scope; a timer is pending exactly when the flag is set, and
    then only one; the queued entries carry different sequence numbers,
    all below the next one to be handed out. *)
Record invariant (w : World) : Prop := mkInv {
  inv_reserved : reservedCount (state w) = Z.of_nat (in_scope w);
  inv_timer :
    timers (env (state w)) = if pendingReset (state w) then 1%nat else 0%nat;
  inv_distinct : distinct (waitQueue (state w));
  inv_sequence :
    Forall (fun c => (sequence c < next_sequence (env (state w)))%nat)
      (waitQueue (state w))
}.

(** The futures of an execution: those of the queued entries are pairwise
    different and have no result; a future has a result or was cancelled,
    not both; and all of them were handed out by [Future()]. *)
Record pending_futures (w : World) : Prop := mkPending {
  pf_distinct : NoDup (map future (waitQueue (state w)));
  pf_unresolved :
    Forall (fun c => ~ In (future c) (resolved (env (state w))))
      (waitQueue (state w));
  pf_allocated :
    Forall (fun c => (future c < next_future (env (state w)))%nat)
      (waitQueue (state w));
  pf_resolved :
    Forall (fun f => (f < next_future (env (state w)))%nat)
      (resolved (env (state w)));
  pf_cancelled :
    Forall (fun f => (f < next_future (env (state w)))%nat)
      (cancelled (env (state w)));
  pf_exclusive :
    Forall (fun f => ~ In f (cancelled (env (state w))))
      (resolved (env (state w)));
  pf_awaiting :
    Forall (fun f => (f < next_future (env (state w)))%nat) (awaiting w)
}.

(** The claim of C5 in the part that fails: the callback takes exactly
    [toRelease] entries out of the queue. *)
Definition dequeues_exactly_to_release (st : State) : Prop :=
  forall st',
    _reset st = (Returned tt, st') ->
    PriorityQueue.qsize (waitQueue st) - PriorityQueue.qsize (waitQueue st')
      = to_release st.

(** The claim of C7 in the part that fails: when the queue holds two
    entries of equal priority, [A] queued before [B], and [toRelease] is
    1 as the timer fires, [A] is released and [B] is not. *)
Definition first_of_two_released (w : World) : Prop :=
  forall A B w',
    Permutation (waitQueue (state w)) [A; B] ->
    priority A = priority B ->
    (sequence A < sequence B)%nat ->
    to_release (state w) = 1 ->
    step w ev_timer = Some w' ->
    In (future A) (resolved (env (state w')))
    /\ ~ In (future B) (resolved (env (state w'))).

(** ** Counting the events of an execution *)

Definition is_acquire (e : Event) : bool :=
  match e with ev_acquire _ => true | _ => false end.

Definition is_exit (e : Event) : bool :=
  match e with ev_exit => true | _ => false end.

Definition is_timer (e : Event) : bool :=
  match e with ev_timer => true | _ => false end.

Definition is_cancel (e : Event) : bool :=
  match e with ev_cancel _ => true | _ => false end.

Definition count (p : Event -> bool) (es : list Event) : nat :=
  length (filter p es).

(** The callers that wait: their futures are pairwise different; each
    queued entry has its caller waiting,
    unless the caller was cancelled; each waiting caller is still queued
    or has been released; no cancelled future is waited on; and no future
    was given its result twice. *)
Record callers_accounted (w : World) : Prop := mkAccounted {
  ca_awaiting_distinct : NoDup (awaiting w);
  ca_resolved_distinct : NoDup (resolved (env (state w)));
  ca_queued_awaited :
    Forall (fun c => In (future c) (awaiting w)
                     \/ In (future c) (cancelled (env (state w))))
      (waitQueue (state w));
  ca_awaited :
    Forall (fun f => In f (map future (waitQueue (state w)))
                     \/ In f (resolved (env (state w))))
      (awaiting w);
  ca_cancelled_gone :
    Forall (fun f => ~ In f (awaiting w)) (cancelled (env (state w)))
}.

(** What the limiter of capacity [L] keeps of its budget: the limit is
    never written; [remaining] is never above both the constructor's 50
    and the limit; and as long as no caller left since the last
    replenishment (the flag is clear) it is one of the two. *)
Record budget_kept (L : Z) (w : World) : Prop := mkBudget {
  bk_limit : limit (self (state w)) = L;
  bk_remaining : remaining (self (state w)) <= Z.max 50 L;
  bk_untouched :
    pendingReset (state w) = false ->
    remaining (self (state w)) = 50 \/ remaining (self (state w)) = L
}.

(** Queued callers have a timer pending or a caller inside the scope,
    whose exit arms one. *)
Definition waiters_served (w : World) : Prop :=
  waitQueue (state w) <> [] ->
  timers (env (state w)) = 1%nat \/ (0 < in_scope w)%nat.

(* ================================================================== *)
(** * Sample states and executions *)
(* ================================================================== *)

(** A gated block that is cancelled at once. *)
Definition cancelled_block : Block unit :=
  fun st => (Raised CancelledError, st).

(** Fifty callers are admitted, one more queues, the fifty leave, the
    timer releases the queued one, fifty new callers are admitted, and
    then the released one resumes. *)
Definition late_resume_trace : list Event :=
  repeat (ev_acquire 0) 50 ++ [ev_acquire 0] ++ repeat ev_exit 50
  ++ [ev_timer] ++ repeat (ev_acquire 0) 50 ++ [ev_resume 0%nat].

(** A limiter of capacity 1 with 49 callers inside the scope and one
    queued, as the timer finds it: its handle is off the schedule and the
    flag is still set. *)
Definition overbooked : State :=
  mkState
    (mkLimiter 1 49 [mkContainer 0 0%nat 0%nat] 49 true)
    (mkEnv 0%nat [] [] 1%nat 1%nat []).

(** A limiter of capacity 7 that was used up, its flag still set. *)
Definition drained : State :=
  mkState (mkLimiter 7 0 [] 0 true) idle.

(** A world with a pending timer: one caller of a limiter of capacity 1
    was admitted and has left. *)
Definition after_one_request : World :=
  mkWorld
    (mkState (mkLimiter 1 49 [] 0 true)
       (mkEnv 1%nat [] [] 0%nat 0%nat
          [debug_calculated_remaining 50; debug_reserved_requests 0]))
    [] 0%nat.

(** The scenario of two equal priorities, on a limiter of capacity 50:
    fifty callers are admitted, then A and B queue with priority 3, in
    this order, and one caller leaves. *)
Definition two_waiters_trace : list Event :=
  repeat (ev_acquire 0) 50 ++ [ev_acquire 3; ev_acquire 3; ev_exit].

Definition two_waiters : World :=
  Eval vm_compute in
    match run (boot 50) two_waiters_trace with
    | Some w => w
    | None => boot 50
    end.

Definition one_released : World :=
  Eval vm_compute in
    match step two_waiters ev_timer with
    | Some w => w
    | None => two_waiters
    end.

(** The same scenario, but A (future 0) is cancelled while it waits,
    before the caller leaves. *)
Definition first_cancelled_trace : list Event :=
  repeat (ev_acquire 0) 50
  ++ [ev_acquire 3; ev_acquire 3; ev_cancel 0%nat; ev_exit].

Definition first_cancelled : World :=
  Eval vm_compute in
    match run (boot 50) first_cancelled_trace with
    | Some w => w
    | None => boot 50
    end.

(** The state in which the timer's callback starts there. *)
Definition first_cancelled_state : State :=
  Eval vm_compute in
    match pop_timer (state first_cancelled) with
    | Some st => st
    | None => state first_cancelled
    end.

(** A limiter of capacity 50 in the middle of its work: fifty callers
    are admitted, two queue with priorities 2 and 1, one caller leaves
    and the timer fires once. *)
Definition busy_trace : list Event :=
  repeat (ev_acquire 0) 50 ++ [ev_acquire 2; ev_acquire 1; ev_exit; ev_timer].

Definition busy : World :=
  Eval vm_compute in
    match run (boot 50) busy_trace with
    | Some w => w
    | None => boot 50
    end.

(** The same work with a third queued caller, which is cancelled while it
    waits. *)
Definition busy_cancel_trace : list Event :=
  repeat (ev_acquire 0) 50
  ++ [ev_acquire 2; ev_acquire 1; ev_acquire 4; ev_cancel 2%nat; ev_exit;
      ev_timer].

Definition busy_cancel : World :=
  Eval vm_compute in
    match run (boot 50) busy_cancel_trace with
    | Some w => w
    | None => boot 50
    end.

(** Three callers on a limiter of capacity 2, one of which has left. *)
Definition short_trace : list Event :=
  [ev_acquire 5; ev_acquire 1; ev_acquire 5; ev_exit].

Definition short_world : World :=
  Eval vm_compute in
    match run (boot 2) short_trace with
    | Some w => w
    | None => boot 2
    end.

(** Fifty callers are admitted and two queue; then two callers leave, a
    third caller queues and one more caller leaves; the timer does not
    fire. *)
Definition waiting_trace : list Event :=
  repeat (ev_acquire 0) 50
  ++ [ev_acquire 2; ev_acquire 1; ev_exit; ev_exit; ev_acquire 6; ev_exit].

(** The world with the two callers queued, before anyone leaves. *)
Definition two_queued : World :=
  Eval vm_compute in
    match run (boot 50)
            (repeat (ev_acquire 0) 50 ++ [ev_acquire 2; ev_acquire 1]) with
    | Some w => w
    | None => boot 50
    end.

Definition still_waiting : World :=
  Eval vm_compute in
    match run (boot 50) waiting_trace with
    | Some w => w
    | None => boot 50
    end.

(** A limiter of capacity 1 with three callers inside the scope. *)
Definition crowded : World :=
  Eval vm_compute in
    match run (boot 1) [ev_acquire 0; ev_acquire 0; ev_acquire 0; ev_exit;
                        ev_timer] with
    | Some w => w
    | None => boot 1
    end.

(** A limiter of capacity 0 after its first replenishment, and a caller
    that arrives then. *)
Definition zero_trace : list Event :=
  [ev_acquire 0; ev_exit; ev_timer; ev_acquire 0].

(** On a limiter of capacity 50: fifty callers are admitted, two queue,
    the first of the two is cancelled, the fifty leave, and the timer
    fires. *)
Definition stranding_trace : list Event :=
  repeat (ev_acquire 0) 50
  ++ [ev_acquire 0; ev_acquire 0; ev_cancel 0%nat]
  ++ repeat ev_exit 50 ++ [ev_timer].

(** A limiter of capacity 5 with one caller inside the scope and two
    queued, as the timer finds it. *)
Definition roomy : State :=
  mkState
    (mkLimiter 5 0 [mkContainer 1 1%nat 1%nat; mkContainer 0 0%nat 0%nat] 1
       true)
    (mkEnv 0%nat [] [] 2%nat 2%nat []).

(* ================================================================== *)
(** * The queue *)
(* ================================================================== *)

Section QueueFacts.

Import PriorityQueue.

Lemma container_lt_iff a b : container_lt a b = true <-> precedes a b.
Proof.
  unfold container_lt, precedes.
  rewrite orb_true_iff, andb_true_iff, Z.ltb_lt, Z.eqb_eq, Nat.ltb_lt.
  reflexivity.
Qed.

Lemma container_lt_false a b :
  container_lt a b = false <-> ~ precedes a b.
Proof.
  rewrite <- container_lt_iff. destruct (container_lt a b); split; intros;
    congruence || (exfalso; auto).
Qed.

Lemma precedes_irrefl a : ~ precedes a a.
Proof. unfold precedes. lia. Qed.

Lemma precedes_trans a b c : precedes a b -> precedes b c -> precedes a c.
Proof. unfold precedes. lia. Qed.

Lemma precedes_asym a b : precedes a b -> ~ precedes b a.
Proof. unfold precedes. lia. Qed.

(** Two entries with different sequence numbers are always ordered. *)
Lemma precedes_total a b :
  sequence a <> sequence b -> precedes a b \/ precedes b a.
Proof. unfold precedes. lia. Qed.

Lemma not_after_trans a b c : not_after a b -> not_after b c -> not_after a c.
Proof. unfold not_after, precedes. lia. Qed.

Lemma extract_min_perm q : forall x m r,
  extract_min x q = (m, r) -> Permutation (x :: q) (m :: r).
Proof.
  induction q as [|y q IH]; intros x m r H; simpl in H.
  - injection H as <- <-. apply Permutation_refl.
  - destruct (container_lt y x).
    + destruct (extract_min y q) as [m' r'] eqn:E.
      injection H as <- <-.
      apply IH in E.
      eapply perm_trans; [apply perm_skip, E|]. apply perm_swap.
    + destruct (extract_min x q) as [m' r'] eqn:E.
      injection H as <- <-.
      apply IH in E.
      eapply perm_trans; [apply perm_swap|].
      eapply perm_trans; [apply perm_skip, E|]. apply perm_swap.
Qed.

Lemma extract_min_least q : forall x m r,
  extract_min x q = (m, r) ->
  not_after m x /\ Forall (not_after m) q.
Proof.
  induction q as [|y q IH]; intros x m r H; simpl in H.
  - injection H as <- <-. split; [apply precedes_irrefl | constructor].
  - destruct (container_lt y x) eqn:L.
    + destruct (extract_min y q) as [m' r'] eqn:E.
      injection H as <- <-.
      apply container_lt_iff in L.
      destruct (IH _ _ _ E) as [Hy Hq].
      split; [|constructor; assumption].
      apply not_after_trans with y; [assumption|].
      apply precedes_asym; assumption.
    + destruct (extract_min x q) as [m' r'] eqn:E.
      injection H as <- <-.
      apply container_lt_false in L.
      destruct (IH _ _ _ E) as [Hx Hq].
      split; [assumption|constructor; [|assumption]].
      apply not_after_trans with x; assumption.
Qed.

Lemma get_nowait_perm q c q' :
  get_nowait q = Some (c, q') -> Permutation q (c :: q').
Proof.
  destruct q as [|x q]; simpl; [discriminate|].
  intros H. injection H as H. apply extract_min_perm; assumption.
Qed.

Lemma get_nowait_least q c q' :
  get_nowait q = Some (c, q') -> Forall (not_after c) q.
Proof.
  destruct q as [|x q]; simpl; [discriminate|].
  intros H. injection H as H. apply extract_min_least in H.
  constructor; tauto.
Qed.

Lemma get_nowait_length q c q' :
  get_nowait q = Some (c, q') -> length q = S (length q').
Proof.
  intros H. apply get_nowait_perm in H.
  apply Permutation_length in H. exact H.
Qed.

Lemma distinct_perm q q' : Permutation q q' -> distinct q -> distinct q'.
Proof.
  unfold distinct. intros P. apply Permutation_NoDup.
  apply Permutation_map. exact P.
Qed.

(** With distinct sequence numbers the entry that comes out precedes all
    that stay. *)
Lemma get_nowait_first q c q' :
  distinct q -> get_nowait q = Some (c, q') ->
  Forall (precedes c) q' /\ distinct q'.
Proof.
  intros D H.
  pose proof (get_nowait_perm _ _ _ H) as P.
  pose proof (get_nowait_least _ _ _ H) as L.
  pose proof (distinct_perm _ _ P D) as D'.
  unfold distinct in D'. simpl in D'. apply NoDup_cons_iff in D'.
  destruct D' as [Hc D']. split; [|exact D'].
  apply Forall_forall. intros b Hb.
  assert (In b q) as Hbq
    by (apply Permutation_in with (c :: q');
        [apply Permutation_sym; exact P | right; exact Hb]).
  rewrite Forall_forall in L. specialize (L b Hbq).
  destruct (precedes_total c b) as [|Hbc]; [|assumption|contradiction].
  intros E. apply Hc. rewrite E. apply in_map. exact Hb.
Qed.

(** Two queued entries with the same sequence number are the same entry. *)
Lemma distinct_same q a b :
  distinct q -> In a q -> In b q -> sequence a = sequence b -> a = b.
Proof.
  unfold distinct. induction q as [|x q IH]; simpl; intros D Ha Hb E.
  - contradiction.
  - apply NoDup_cons_iff in D. destruct D as [Hx D].
    destruct Ha as [<-|Ha], Hb as [<-|Hb].
    + reflexivity.
    + exfalso. apply Hx. rewrite E. apply in_map. exact Hb.
    + exfalso. apply Hx. rewrite <- E. apply in_map. exact Ha.
    + apply IH; assumption.
Qed.

(** What [get_nowait] returns depends on the entries in the queue and not
    on how the queue lays them out: two layouts of the same entries give
    the same entry and leave the same entries. *)
Lemma get_nowait_layout q1 q2 c1 r1 c2 r2 :
  distinct q1 -> Permutation q1 q2 ->
  get_nowait q1 = Some (c1, r1) -> get_nowait q2 = Some (c2, r2) ->
  c1 = c2 /\ Permutation r1 r2.
Proof.
  intros D P G1 G2.
  pose proof (get_nowait_perm _ _ _ G1) as P1.
  pose proof (get_nowait_perm _ _ _ G2) as P2.
  pose proof (get_nowait_least _ _ _ G1) as L1.
  pose proof (get_nowait_least _ _ _ G2) as L2.
  rewrite Forall_forall in L1, L2.
  assert (In c1 q1) as I1
    by (eapply Permutation_in; [apply Permutation_sym, P1 | left; reflexivity]).
  assert (In c2 q2) as I2
    by (eapply Permutation_in; [apply Permutation_sym, P2 | left; reflexivity]).
  assert (In c2 q1) as I21
    by (eapply Permutation_in; [apply Permutation_sym, P | exact I2]).
  assert (In c1 q2) as I12
    by (eapply Permutation_in; [exact P | exact I1]).
  assert (c1 = c2) as E.
  { apply (distinct_same q1); try assumption.
    specialize (L1 c2 I21). specialize (L2 c1 I12).
    unfold not_after, precedes in *. lia. }
  split; [exact E|]. subst c2.
  apply Permutation_cons_inv with c1.
  eapply perm_trans; [apply Permutation_sym, P1|].
  eapply perm_trans; [exact P|]. exact P2.
Qed.

Lemma take_length n : forall q cs q',
  take n q = Some (cs, q') ->
  length cs = n /\ length q = (n + length q')%nat.
Proof.
  induction n as [|n IH]; intros q cs q' H; simpl in H.
  - injection H as <- <-. auto.
  - destruct (get_nowait q) as [[c q1]|] eqn:G; [|discriminate].
    destruct (take n q1) as [[cs1 q2]|] eqn:T; [|discriminate].
    injection H as <- <-.
    apply IH in T. apply get_nowait_length in G. simpl. lia.
Qed.

(** [take] does not meet an empty queue when it takes no more than the
    queue holds. *)
Lemma take_total n : forall q,
  (n <= length q)%nat -> exists cs q', take n q = Some (cs, q').
Proof.
  induction n as [|n IH]; intros q Hn; simpl.
  - eauto.
  - destruct q as [|x q]; [simpl in Hn; lia|].
    destruct (get_nowait (x :: q)) as [[c q1]|] eqn:G; [|discriminate].
    pose proof (get_nowait_length _ _ _ G) as L. simpl in L, Hn.
    destruct (IH q1) as (cs & q2 & T); [lia|].
    rewrite T. eauto.
Qed.

Lemma take_perm n : forall q cs q',
  take n q = Some (cs, q') -> Permutation q (cs ++ q').
Proof.
  induction n as [|n IH]; intros q cs q' H; simpl in H.
  - injection H as <- <-. apply Permutation_refl.
  - destruct (get_nowait q) as [[c q1]|] eqn:G; [|discriminate].
    destruct (take n q1) as [[cs1 q2]|] eqn:T; [|discriminate].
    injection H as <- <-.
    apply get_nowait_perm in G. apply IH in T.
    eapply perm_trans; [exact G|]. simpl. apply perm_skip. exact T.
Qed.

(** The order of release: what comes out is in serving order, and each
    entry that comes out precedes each entry that stays. *)
Lemma take_order n : forall q cs q',
  distinct q -> take n q = Some (cs, q') ->
  StronglySorted precedes cs
  /\ (forall a b, In a cs -> In b q' -> precedes a b)
  /\ distinct q'.
Proof.
  induction n as [|n IH]; intros q cs q' D H; simpl in H.
  - injection H as <- <-. split; [constructor|]. split; [|exact D].
    intros a b [].
  - destruct (get_nowait q) as [[c q1]|] eqn:G; [|discriminate].
    destruct (take n q1) as [[cs1 q2]|] eqn:T; [|discriminate].
    injection H as <- <-.
    destruct (get_nowait_first _ _ _ D G) as [F D1].
    destruct (IH _ _ _ D1 T) as (S1 & B1 & D2).
    pose proof (take_perm _ _ _ _ T) as P.
    rewrite Forall_forall in F.
    assert (forall b, In b (cs1 ++ q2) -> precedes c b) as Fc.
    { intros b Hb. apply F. apply Permutation_in with (cs1 ++ q2);
        [apply Permutation_sym; exact P | exact Hb]. }
    split; [|split; [|exact D2]].
    + constructor; [exact S1|]. apply Forall_forall. intros b Hb.
      apply Fc. apply in_or_app. left. exact Hb.
    + intros a b [<-|Ha] Hb.
      * apply Fc. apply in_or_app. right. exact Hb.
      * apply B1; assumption.
Qed.

End QueueFacts.

(* ================================================================== *)
(** * The replenishment callback in closed form *)
(* ================================================================== *)

Lemma mem_In f l : mem f l = true <-> In f l.
Proof.
  unfold mem. rewrite existsb_exists. split.
  - intros (g & Hg & E). apply Nat.eqb_eq in E. subst g. exact Hg.
  - intros H. exists f. split; [exact H | apply Nat.eqb_refl].
Qed.

Lemma future_done_false e f :
  future_done e f = false <-> ~ In f (resolved e) /\ ~ In f (cancelled e).
Proof.
  unfold future_done. rewrite orb_false_iff.
  rewrite <- !mem_In. split; intros [H1 H2].
  - rewrite H1, H2. split; discriminate.
  - split; [destruct (mem f (resolved e)) | destruct (mem f (cancelled e))];
      congruence.
Qed.

Lemma future_done_true e f :
  future_done e f = true <-> In f (resolved e) \/ In f (cancelled e).
Proof.
  unfold future_done. rewrite orb_true_iff, !mem_In. reflexivity.
Qed.

Lemma after_release_nil st : after_release [] (waitQueue st) st = st.
Proof.
  destruct st as [[l r q rs pr] [t rv cn nf ns lg]].
  unfold after_release, waitQueue; simpl. rewrite app_nil_r. reflexivity.
Qed.

(** The shape of every run of the loop: the entries [ok] came out and
    their futures, pending and pairwise different, got their result in
    this order; then the loop ended after its [n] rounds, or one more
    entry [bad] came out whose future was done, and [set_result] raised.
    [queue.Empty] is raised only on an empty queue. *)
Lemma release_loop_shape n : forall st,
  exists ok dropped q',
    PriorityQueue.take (length ok + length dropped) (waitQueue st)
      = Some (ok ++ dropped, q')
    /\ snd (release_loop n st) = after_release ok q' st
    /\ Forall (pending (env st)) ok
    /\ NoDup (map future ok)
    /\ ((fst (release_loop n st) = Returned tt
         /\ dropped = [] /\ length ok = n)
        \/ (fst (release_loop n st) = Raised InvalidStateError
            /\ (length ok < n)%nat
            /\ exists bad,
                 dropped = [bad]
                 /\ future_done (env (after_release ok q' st)) (future bad)
                    = true)
        \/ (fst (release_loop n st) = Raised Empty
            /\ (length ok < n)%nat /\ dropped = [] /\ q' = [])).
Proof.
  induction n as [|n IH]; intros st.
  - exists [], [], (waitQueue st). simpl.
    rewrite after_release_nil.
    split; [reflexivity|]. split; [reflexivity|].
    split; [constructor|]. split; [constructor|]. left. auto.
  - simpl. fold (waitQueue st).
    destruct (PriorityQueue.get_nowait (waitQueue st)) as [[c q1]|] eqn:G.
    + destruct st as [[l r q rs pr] [t rv cn nf ns lg]].
      unfold waitQueue in *; simpl in *.
      unfold set_result; simpl.
      destruct (future_done (mkEnv t rv cn nf ns lg) (future c)) eqn:D.
      * exists [], [c], q1. simpl. rewrite G. simpl.
        unfold after_release; simpl. rewrite app_nil_r.
        split; [reflexivity|]. split; [reflexivity|].
        split; [constructor|]. split; [constructor|].
        right. left. split; [reflexivity|]. split; [lia|].
        exists c. split; [reflexivity|]. exact D.
      * destruct (IH (mkState (mkLimiter l r q1 rs pr)
                        (mkEnv t (rv ++ [future c]) cn nf ns lg)))
          as (ok & dropped & q' & T & S1 & P & N & C).
        unfold waitQueue in T; simpl in T.
        exists (c :: ok), dropped, q'. simpl. rewrite G, T.
        rewrite S1. unfold after_release; simpl. rewrite <- app_assoc.
        assert (forall b, In b ok ->
                  future_done (mkEnv t rv cn nf ns lg) (future b) = false
                  /\ future b <> future c) as K.
        { intros b Hb. rewrite Forall_forall in P. specialize (P b Hb).
          unfold pending in P. apply future_done_false in P. simpl in P.
          destruct P as [P1 P2]. split.
          - apply future_done_false. simpl. split; [|exact P2].
            intros Hin. apply P1, in_or_app. left. exact Hin.
          - intros E. apply P1, in_or_app. right. left. auto. }
        split; [reflexivity|]. split; [reflexivity|].
        split; [|split].
        -- constructor; [exact D|]. apply Forall_forall. intros b Hb.
           apply K. exact Hb.
        -- constructor; [|exact N]. intros Hin. apply in_map_iff in Hin.
           destruct Hin as (b & E & Hb). apply (K b Hb). exact E.
        -- unfold after_release in C; simpl in C.
           rewrite <- app_assoc in C. simpl in C.
           destruct C as [(C1 & C2 & C3)|[(C1 & C2 & C3)|(C1 & C2 & C3)]].
           ++ left. repeat split; [exact C1 | exact C2 | lia].
           ++ right. left. repeat split; [exact C1 | lia | exact C3].
           ++ right. right. repeat split; [exact C1 | lia | tauto | tauto].
    + exists [], [], (waitQueue st). simpl.
      rewrite after_release_nil.
      split; [reflexivity|]. split; [reflexivity|].
      split; [constructor|]. split; [constructor|].
      right. right. split; [reflexivity|]. split; [lia|].
      split; [reflexivity|].
      destruct (waitQueue st); [reflexivity | discriminate].
Qed.

Lemma range_len_to_release st :
  (range_len (to_release st) <= length (waitQueue st))%nat.
Proof.
  unfold range_len, to_release, waitQueue, PriorityQueue.qsize. lia.
Qed.

(** The shape of every run of [_reset]: it returns after it took out
    [range(to_release)] entries, all released, or [set_result] raises on
    an entry [bad] taken out after the released ones.  It never meets an
    empty queue. *)
Lemma _reset_shape st :
  exists ok dropped q',
    PriorityQueue.take (length ok + length dropped) (waitQueue st)
      = Some (ok ++ dropped, q')
    /\ Forall (pending (env st)) ok
    /\ NoDup (map future ok)
    /\ ((_reset st = (Returned tt, after_reset ok q' st)
         /\ dropped = [] /\ length ok = range_len (to_release st))
        \/ (_reset st = (Raised InvalidStateError, after_raise ok q' st)
            /\ (length ok < range_len (to_release st))%nat
            /\ exists bad,
                 dropped = [bad]
                 /\ (In (future bad) (resolved (env st) ++ map future ok)
                     \/ In (future bad) (cancelled (env st))))).
Proof.
  pose proof (range_len_to_release st) as Hn.
  destruct st as [[l r q rs pr] [t rv cn nf ns lg]].
  unfold _reset, waitQueue, to_release in *; simpl in *.
  set (n := range_len (Z.min (PriorityQueue.qsize q) (l - rs))) in *.
  destruct (release_loop_shape n
              (mkState (mkLimiter l l q rs false)
                 (mkEnv t rv cn nf ns
                    (lg ++ [debug_releasing
                              (Z.min (PriorityQueue.qsize q) (l - rs))]))))
    as (ok & dropped & q' & T & S1 & P & N & C).
  unfold waitQueue in T; simpl in T.
  exists ok, dropped, q'. split; [exact T|].
  split; [exact P|]. split; [exact N|].
  destruct (release_loop n _) as [o st1] eqn:E. simpl in S1, C.
  subst st1. unfold after_release in *; simpl in *.
  destruct C as [(C1 & C2 & C3)|[(C1 & C2 & bad & C3 & C4)|(C1 & C2 & C3 & C4)]].
  - left. subst o. split; [|auto].
    unfold after_reset, to_release; simpl.
    destruct (PriorityQueue.qsize q' =? 0); reflexivity.
  - right. subst o. split; [reflexivity|]. split; [exact C2|].
    exists bad. split; [exact C3|].
    apply future_done_true in C4. exact C4.
  - exfalso. subst dropped q'.
    apply take_length in T. simpl in T. lia.
Qed.

(** [_reset] returns when the futures of the entries it takes out are
    pending and pairwise different. *)
Lemma take_prefix k : forall n q a q1 cs q',
  (k <= n)%nat ->
  PriorityQueue.take k q = Some (a, q1) ->
  PriorityQueue.take n q = Some (cs, q') ->
  exists rest, cs = a ++ rest.
Proof.
  induction k as [|k IH]; intros n q a q1 cs q' Hk Ta Tn; simpl in Ta.
  - injection Ta as <- <-. exists cs. reflexivity.
  - destruct n as [|n]; [lia|]. simpl in Tn.
    destruct (PriorityQueue.get_nowait q) as [[c qa]|]; [|discriminate].
    destruct (PriorityQueue.take k qa) as [[a1 q2]|] eqn:Tk; [|discriminate].
    destruct (PriorityQueue.take n qa) as [[c1 q3]|] eqn:Tm; [|discriminate].
    injection Ta as <- <-. injection Tn as <- <-.
    destruct (IH n qa a1 q2 c1 q3) as (rest & ->); [lia|exact Tk|exact Tm|].
    exists rest. reflexivity.
Qed.

Lemma _reset_returns st cs q' :
  PriorityQueue.take (range_len (to_release st)) (waitQueue st)
    = Some (cs, q') ->
  NoDup (map future cs) ->
  Forall (pending (env st)) cs ->
  _reset st = (Returned tt, after_reset cs q' st).
Proof.
  intros T N P.
  destruct (_reset_shape st) as (ok & dropped & q1 & T1 & _ & _ & C).
  destruct C as [(R & -> & L)|(R & L & bad & -> & D)].
  - rewrite app_nil_r, Nat.add_0_r, L, T in T1.
    injection T1 as <- <-. exact R.
  - exfalso.
    assert (length ok + length [bad] <= range_len (to_release st))%nat
      as Hk by (simpl; lia).
    destruct (take_prefix _ _ _ _ _ _ _ Hk T1 T) as (rest & ->).
    rewrite <- app_assoc in N, P. simpl in N, P.
    rewrite map_app in N. simpl in N.
    apply Forall_app in P. destruct P as [_ P].
    apply Forall_inv in P. unfold pending in P.
    apply future_done_false in P. destruct P as [P1 P2].
    destruct D as [D|D]; [|contradiction].
    apply in_app_or in D. destruct D as [D|D]; [contradiction|].
    apply NoDup_remove_2 in N. apply N. apply in_or_app. left. exact D.
Qed.
(* ================================================================== *)
(** * The transitions *)
(* ================================================================== *)

(** What a firing of the timer does, field by field: its handle leaves the
    schedule; the entries [ok] are released in this order and [q'] stays
    queued; [_reset] either returned, or raised on one more entry [bad]
    that came out of the queue with a future that was done, and then the
    flag is clear and nothing is scheduled. *)
Lemma timer_fires w w' :
  step w ev_timer = Some w' ->
  exists t ok dropped q',
    timers (env (state w)) = S t
    /\ PriorityQueue.take (length ok + length dropped) (waitQueue (state w))
       = Some (ok ++ dropped, q')
    /\ Forall (pending (env (state w))) ok
    /\ NoDup (map future ok)
    /\ waitQueue (state w') = q'
    /\ resolved (env (state w'))
       = resolved (env (state w)) ++ map future ok
    /\ cancelled (env (state w')) = cancelled (env (state w))
    /\ next_future (env (state w')) = next_future (env (state w))
    /\ next_sequence (env (state w')) = next_sequence (env (state w))
    /\ reservedCount (state w') = reservedCount (state w)
    /\ limit (self (state w')) = limit (self (state w))
    /\ remaining (self (state w')) = limit (self (state w))
    /\ awaiting w' = awaiting w
    /\ in_scope w' = in_scope w
    /\ ((dropped = []
         /\ length ok = range_len (to_release (state w))
         /\ pendingReset (state w') = negb (PriorityQueue.qsize q' =? 0)
         /\ timers (env (state w'))
            = (if PriorityQueue.qsize q' =? 0 then t else S t))
        \/ ((length ok < range_len (to_release (state w)))%nat
            /\ pendingReset (state w') = false
            /\ timers (env (state w')) = t
            /\ exists bad,
                 dropped = [bad]
                 /\ (In (future bad)
                       (resolved (env (state w)) ++ map future ok)
                     \/ In (future bad) (cancelled (env (state w)))))).
Proof.
  destruct w as [[[l r q rs pr] [t rv cn nf ns lg]] aw n].
  simpl. unfold pop_timer; simpl.
  destruct t as [|t]; [discriminate|].
  intros H; injection H as <-.
  destruct (_reset_shape
              (mkState (mkLimiter l r q rs pr) (mkEnv t rv cn nf ns lg)))
    as (ok & dropped & q' & T & P & N & C).
  unfold waitQueue, reservedCount, pendingReset in *; simpl in *.
  exists t, ok, dropped, q'.
  split; [reflexivity|]. split; [exact T|].
  split; [exact P|]. split; [exact N|].
  destruct C as [(R & D & L)|(R & L & bad & D & B)]; rewrite R; simpl.
  - repeat (split; [reflexivity|]). left.
    split; [exact D|]. split; [exact L|]. split; [reflexivity|].
    destruct (PriorityQueue.qsize q' =? 0); reflexivity.
  - repeat (split; [reflexivity|]). right.
    split; [exact L|]. split; [reflexivity|]. split; [reflexivity|].
    exists bad. split; [exact D | exact B].
Qed.

(** What came out and what stayed is what was queued. *)
Lemma timer_keeps_entries (q : PriorityQueue.t) ok dropped q' :
  PriorityQueue.take (length ok + length dropped) q
    = Some (ok ++ dropped, q') ->
  Permutation q (ok ++ dropped ++ q').
Proof.
  intros T. apply take_perm in T. rewrite <- app_assoc in T. exact T.
Qed.

(* ================================================================== *)
(** * Invariants of the executions *)
(* ================================================================== *)

Lemma invariant_boot L : invariant (boot L).
Proof.
  constructor; simpl; try reflexivity; constructor.
Qed.

Lemma fresh_sequence_distinct c q bound :
  sequence c = bound ->
  Forall (fun b => (sequence b < bound)%nat) q ->
  distinct q -> distinct (c :: q).
Proof.
  unfold distinct. intros E F D. simpl. constructor; [|exact D].
  intros Hin. apply in_map_iff in Hin. destruct Hin as (b & Eb & Hb).
  rewrite Forall_forall in F. specialize (F b Hb). lia.
Qed.

Lemma sequence_bound_perm (q q' : PriorityQueue.t) rest bound :
  Permutation q (rest ++ q') ->
  Forall (fun b => (sequence b < bound)%nat) q ->
  Forall (fun b => (sequence b < bound)%nat) q'.
Proof.
  intros P F. rewrite Forall_forall in *. intros b Hb. apply F.
  apply Permutation_in with (rest ++ q');
    [apply Permutation_sym; exact P | apply in_or_app; right; exact Hb].
Qed.

Lemma invariant_acquire w p w' :
  invariant w -> step w (ev_acquire p) = Some w' -> invariant w'.
Proof.
  destruct w as [[[l r q rs pr] [t rv cn nf ns lg]] aw n].
  intros [I1 I2 I3 I4]. unfold reservedCount, pendingReset, waitQueue in *.
  simpl in *. unfold acquire_enter; simpl.
  destruct (r - rs =? 0); simpl; intros H; injection H as <-;
    constructor; unfold reservedCount, pendingReset, waitQueue; simpl;
    try assumption.
  - apply fresh_sequence_distinct with ns; auto.
  - constructor; [simpl; lia|].
    eapply Forall_impl; [|exact I4]. simpl. intros; lia.
  - lia.
Qed.

Lemma invariant_resume w f w' :
  invariant w -> step w (ev_resume f) = Some w' -> invariant w'.
Proof.
  destruct w as [[[l r q rs pr] [t rv cn nf ns lg]] aw n].
  intros [I1 I2 I3 I4]. unfold reservedCount, pendingReset, waitQueue in *.
  simpl in *.
  destruct (mem f aw && mem f rv); [|discriminate].
  intros H; injection H as <-.
  constructor; unfold reservedCount, pendingReset, waitQueue; simpl;
    try assumption; lia.
Qed.

Lemma invariant_exit w w' :
  invariant w -> step w ev_exit = Some w' -> invariant w'.
Proof.
  destruct w as [[[l r q rs pr] [t rv cn nf ns lg]] aw n].
  intros [I1 I2 I3 I4]. unfold reservedCount, pendingReset, waitQueue in *.
  simpl in *.
  destruct n as [|n]; [discriminate|].
  intros H; injection H as <-.
  unfold acquire_exit; simpl.
  destruct pr; simpl;
    constructor; unfold reservedCount, pendingReset, waitQueue; simpl;
    try assumption; lia.
Qed.

Lemma invariant_timer w w' :
  invariant w -> step w ev_timer = Some w' -> invariant w'.
Proof.
  intros [I1 I2 I3 I4] S1.
  destruct (timer_fires _ _ S1)
    as (t & ok & dropped & q' & Ht & T & _ & _ & Hq & _ & _ & _ & Hs & Hr
        & _ & _ & _ & Hn & C).
  pose proof (take_perm _ _ _ _ T) as P.
  destruct (take_order _ _ _ _ I3 T) as (_ & _ & D).
  assert (t = 0%nat) as ->
    by (rewrite Ht in I2; destruct (pendingReset (state w)); lia).
  constructor.
  - rewrite Hr, Hn. exact I1.
  - destruct C as [(_ & _ & -> & ->)|(_ & -> & -> & _)];
      [destruct (PriorityQueue.qsize q' =? 0)|]; reflexivity.
  - rewrite Hq. exact D.
  - rewrite Hq, Hs. eapply sequence_bound_perm; eassumption.
Qed.

Lemma invariant_update w r w' :
  invariant w -> step w (ev_update r) = Some w' -> invariant w'.
Proof.
  destruct w as [[[l rm q rs pr] [t rv cn nf ns lg]] aw n].
  intros [I1 I2 I3 I4]. simpl. intros H; injection H as <-.
  constructor; assumption.
Qed.

Lemma invariant_cancel w f w' :
  invariant w -> step w (ev_cancel f) = Some w' -> invariant w'.
Proof.
  destruct w as [[[l rm q rs pr] [t rv cn nf ns lg]] aw n].
  intros [I1 I2 I3 I4]. simpl.
  destruct (mem f aw); [|discriminate].
  intros H; injection H as <-. unfold cancel_waiter; simpl.
  destruct (future_done _ f); constructor; assumption.
Qed.

Lemma invariant_step w e w' :
  invariant w -> step w e = Some w' -> invariant w'.
Proof.
  destruct e.
  - apply invariant_acquire.
  - apply invariant_resume.
  - apply invariant_exit.
  - apply invariant_timer.
  - apply invariant_update.
  - apply invariant_cancel.
Qed.

Lemma invariant_run es : forall w w',
  invariant w -> run w es = Some w' -> invariant w'.
Proof.
  induction es as [|e es IH]; intros w w' I H; simpl in H.
  - injection H as <-. exact I.
  - destruct (step w e) as [w1|] eqn:S1; [|discriminate].
    apply IH with w1; [|exact H]. eapply invariant_step; eassumption.
Qed.

Lemma reachable_invariant L w : reachable L w -> invariant w.
Proof.
  intros [es H]. eapply invariant_run; [apply invariant_boot | exact H].
Qed.

(** The reservation counter never goes below zero. *)
Lemma reservedCount_nonneg L w :
  reachable L w -> 0 <= reservedCount (state w).
Proof.
  intros H. apply reachable_invariant in H. destruct H as [I1 _ _ _].
  rewrite I1. lia.
Qed.

(** ** The futures *)

Lemma pending_futures_boot L : pending_futures (boot L).
Proof. constructor; simpl; constructor. Qed.

Lemma forget_In f g l : In g (forget f l) <-> In g l /\ g <> f.
Proof.
  unfold forget. rewrite filter_In, negb_true_iff, Nat.eqb_neq.
  split; intros [H1 H2]; split; auto.
Qed.

Lemma forget_bound f l bound :
  Forall (fun g => (g < bound)%nat) l ->
  Forall (fun g => (g < bound)%nat) (forget f l).
Proof.
  intros F. rewrite Forall_forall in *. intros g Hg.
  apply forget_In in Hg. apply F. tauto.
Qed.

Lemma pending_futures_step w e w' :
  pending_futures w -> step w e = Some w' -> pending_futures w'.
Proof.
  intros [P1 P2 P3 P4 P5 P6 P7] S1.
  destruct e.
  - destruct w as [[[l r q rs pr] [t rv cn nf ns lg]] aw n].
    unfold waitQueue in *; simpl in *.
    unfold acquire_enter in S1; simpl in S1.
    destruct (r - rs =? 0); simpl in S1; injection S1 as <-;
      constructor; unfold waitQueue; simpl; try assumption.
    + constructor; [|exact P1]. intros Hin. apply in_map_iff in Hin.
      destruct Hin as (b & Eb & Hb).
      rewrite Forall_forall in P3. specialize (P3 b Hb). lia.
    + constructor; [|exact P2]. simpl. intros Hin.
      rewrite Forall_forall in P4. specialize (P4 nf Hin). lia.
    + constructor; [simpl; lia|].
      eapply Forall_impl; [|exact P3]. simpl. intros; lia.
    + eapply Forall_impl; [|exact P4]. simpl. intros; lia.
    + eapply Forall_impl; [|exact P5]. simpl. intros; lia.
    + constructor; [lia|].
      eapply Forall_impl; [|exact P7]. simpl. intros; lia.
  - destruct w as [[[l r q rs pr] [t rv cn nf ns lg]] aw n].
    unfold waitQueue in *; simpl in *.
    destruct (mem f aw && mem f rv); [|discriminate].
    injection S1 as <-. constructor; simpl; try assumption.
    apply forget_bound. exact P7.
  - destruct w as [[[l r q rs pr] [t rv cn nf ns lg]] aw n].
    unfold waitQueue in *; simpl in *.
    destruct n as [|n]; [discriminate|].
    injection S1 as <-. unfold acquire_exit; simpl.
    destruct pr; constructor; assumption.
  - destruct (timer_fires _ _ S1)
      as (t & ok & dropped & q' & _ & T & Pk & Nk & Hq & Hres & Hcn & Hnf
          & _ & _ & _ & _ & Haw & _ & _).
    pose proof (timer_keeps_entries _ _ _ _ T) as P.
    assert (NoDup (map future ok ++ map future dropped ++ map future q'))
      as N.
    { rewrite <- !map_app. eapply Permutation_NoDup; [|exact P1].
      apply Permutation_map. exact P. }
    assert (forall b, In b (ok ++ dropped ++ q') -> In b (waitQueue (state w)))
      as Sub.
    { intros b Hb. eapply Permutation_in;
        [apply Permutation_sym; exact P | exact Hb]. }
    assert (forall b, In b q' -> In b (waitQueue (state w))) as Subq.
    { intros b Hb. apply Sub. apply in_or_app. right.
      apply in_or_app. right. exact Hb. }
    assert (forall b, In b ok -> In b (waitQueue (state w))) as Subk.
    { intros b Hb. apply Sub. apply in_or_app. left. exact Hb. }
    rewrite Forall_forall in P2, P3, Pk.
    constructor; rewrite ?Hq, ?Hres, ?Hcn, ?Hnf, ?Haw.
    + apply NoDup_app_remove_l in N. apply NoDup_app_remove_l in N. exact N.
    + apply Forall_forall. intros b Hb Hin.
      apply in_app_or in Hin. destruct Hin as [Hin|Hin].
      * apply (P2 b); [apply Subq; exact Hb | exact Hin].
      * revert N Hin Hb. clear. intros N Hin Hb.
        induction ok as [|c ok IH]; simpl in *; [contradiction|].
        apply NoDup_cons_iff in N. destruct N as [Nc N].
        destruct Hin as [E|Hin]; [|auto].
        apply Nc. rewrite E. apply in_or_app. right.
        apply in_or_app. right. apply in_map. exact Hb.
    + apply Forall_forall. intros b Hb. apply P3, Subq. exact Hb.
    + apply Forall_app. split; [exact P4|].
      apply Forall_forall. intros f Hf. apply in_map_iff in Hf.
      destruct Hf as (b & <- & Hb). apply P3, Subk. exact Hb.
    + exact P5.
    + apply Forall_app. split; [exact P6|].
      apply Forall_forall. intros f Hf. apply in_map_iff in Hf.
      destruct Hf as (b & <- & Hb). specialize (Pk b Hb).
      unfold pending in Pk. apply future_done_false in Pk. tauto.
    + exact P7.
  - destruct w as [[[l r q rs pr] [t rv cn nf ns lg]] aw n].
    unfold waitQueue in *; simpl in *.
    injection S1 as <-. constructor; assumption.
  - destruct w as [[[l r q rs pr] [t rv cn nf ns lg]] aw n].
    unfold waitQueue in *; simpl in *.
    destruct (mem f aw) eqn:M; [|discriminate].
    injection S1 as <-. unfold cancel_waiter; simpl.
    apply mem_In in M.
    destruct (future_done (mkEnv t rv cn nf ns lg) f) eqn:D.
    + constructor; simpl; try assumption. apply forget_bound. exact P7.
    + apply future_done_false in D. simpl in D. destruct D as [D1 D2].
      constructor; unfold waitQueue; simpl; try assumption.
      * apply Forall_app. split; [exact P5|]. constructor; [|constructor].
        rewrite Forall_forall in P7. apply P7. exact M.
      * apply Forall_forall. intros g Hg Hin.
        apply in_app_or in Hin. destruct Hin as [Hin|[<-|[]]].
        -- rewrite Forall_forall in P6. apply (P6 g Hg Hin).
        -- contradiction.
      * apply forget_bound. exact P7.
Qed.

Lemma pending_futures_run es : forall w w',
  pending_futures w -> run w es = Some w' -> pending_futures w'.
Proof.
  induction es as [|e es IH]; intros w w' P H; simpl in H.
  - injection H as <-. exact P.
  - destruct (step w e) as [w1|] eqn:S1; [|discriminate].
    apply IH with w1; [|exact H]. eapply pending_futures_step; eassumption.
Qed.

Lemma reachable_pending_futures L w : reachable L w -> pending_futures w.
Proof.
  intros [es H]. eapply pending_futures_run; [|exact H].
  apply pending_futures_boot.
Qed.

(** ** The callers *)

(** Forgetting a future that occurs once shortens the list by one. *)
Lemma forget_length f l :
  NoDup l -> In f l -> S (length (forget f l)) = length l.
Proof.
  induction l as [|g l IH]; simpl; intros N H; [contradiction|].
  apply NoDup_cons_iff in N. destruct N as [Ng N].
  destruct (Nat.eqb_spec f g) as [E|E]; simpl.
  - subst g. f_equal.
    assert (forget f l = l) as ->; [|reflexivity].
    clear IH H N. induction l as [|h l IH]; simpl; [reflexivity|].
    destruct (Nat.eqb_spec f h) as [E|E]; simpl.
    + exfalso. apply Ng. left. auto.
    + f_equal. apply IH. intros Hin. apply Ng. right. exact Hin.
  - destruct H as [H|H]; [congruence|]. f_equal. apply IH; assumption.
Qed.

Lemma callers_accounted_boot L : callers_accounted (boot L).
Proof. constructor; simpl; constructor. Qed.

Lemma callers_accounted_step w e w' :
  pending_futures w -> callers_accounted w ->
  step w e = Some w' -> callers_accounted w'.
Proof.
  intros [P1 P2 P3 P4 P5 P6 P7] [A1 A3 A4 A5 A6] S1.
  rewrite Forall_forall in A4, A5, A6, P2, P3, P5, P7.
  destruct e.
  - destruct w as [[[l r q rs pr] [t rv cn nf ns lg]] aw n].
    unfold waitQueue in *; simpl in *.
    unfold acquire_enter in S1; simpl in S1.
    destruct (r - rs =? 0); simpl in S1; injection S1 as <-;
      constructor; unfold waitQueue; simpl;
      try assumption; try (apply Forall_forall; assumption).
    + constructor; [|exact A1]. intros Hin. specialize (P7 nf Hin). lia.
    + constructor; [left; left; reflexivity|]. apply Forall_forall.
      intros c Hc. destruct (A4 c Hc) as [H|H]; [left; right|right]; exact H.
    + constructor; [left; left; reflexivity|]. apply Forall_forall.
      intros f Hf. destruct (A5 f Hf) as [H|H]; [left; right|right]; exact H.
    + apply Forall_forall. intros f Hf [E|Hin].
      * specialize (P5 f Hf). lia.
      * apply (A6 f Hf Hin).
  - destruct w as [[[l r q rs pr] [t rv cn nf ns lg]] aw n].
    unfold waitQueue in *; simpl in *.
    destruct (mem f aw && mem f rv) eqn:G; [|discriminate].
    apply andb_true_iff in G. destruct G as [_ G]. apply mem_In in G.
    injection S1 as <-.
    constructor; unfold waitQueue; simpl.
    + apply NoDup_filter. exact A1.
    + exact A3.
    + apply Forall_forall. intros c Hc.
      destruct (A4 c Hc) as [H|H]; [left|right; exact H].
      apply forget_In. split; [exact H|]. intros E. apply (P2 c Hc).
      rewrite E. exact G.
    + apply Forall_forall. intros g Hg. apply forget_In in Hg.
      apply A5. tauto.
    + apply Forall_forall. intros g Hg Hin. apply forget_In in Hin.
      apply (A6 g Hg). tauto.
  - destruct w as [[[l r q rs pr] [t rv cn nf ns lg]] aw n].
    unfold waitQueue in *; simpl in *.
    destruct n as [|n]; [discriminate|].
    injection S1 as <-. unfold acquire_exit; simpl.
    destruct pr; constructor; unfold waitQueue; simpl;
      try assumption; apply Forall_forall; assumption.
  - destruct (timer_fires _ _ S1)
      as (t & ok & dropped & q' & _ & T & Pk & Nk & Hq & Hres & Hcn & _
          & _ & _ & _ & _ & Haw & _ & C).
    pose proof (timer_keeps_entries _ _ _ _ T) as P.
    assert (forall b, In b (ok ++ dropped ++ q') -> In b (waitQueue (state w)))
      as Sub.
    { intros b Hb. eapply Permutation_in;
        [apply Permutation_sym; exact P | exact Hb]. }
    rewrite Forall_forall in Pk.
    constructor; rewrite ?Hq, ?Hres, ?Hcn, ?Haw.
    + exact A1.
    + apply NoDup_app; [exact A3 | exact Nk|].
      intros f Hf Hin. apply in_map_iff in Hin.
      destruct Hin as (b & <- & Hb). specialize (Pk b Hb).
      unfold pending in Pk. apply future_done_false in Pk. tauto.
    + apply Forall_forall. intros c Hc. apply A4, Sub.
      apply in_or_app. right. apply in_or_app. right. exact Hc.
    + apply Forall_forall. intros f Hf.
      destruct (A5 f Hf) as [H|H]; [|right; apply in_or_app; left; exact H].
      apply in_map_iff in H. destruct H as (b & <- & Hb).
      apply (Permutation_in _ P) in Hb. apply in_app_or in Hb.
      destruct Hb as [Hb|Hb];
        [right; apply in_or_app; right; apply in_map; exact Hb|].
      apply in_app_or in Hb.
      destruct Hb as [Hb|Hb]; [|left; apply in_map; exact Hb].
      destruct C as [(-> & _)|(_ & _ & _ & bad & -> & B)]; [contradiction|].
      destruct Hb as [<-|[]].
      destruct B as [B|B]; [right; exact B|].
      exfalso. apply (A6 _ B Hf).
    + apply Forall_forall. exact A6.
  - destruct w as [[[l r q rs pr] [t rv cn nf ns lg]] aw n].
    unfold waitQueue in *; simpl in *.
    injection S1 as <-.
    constructor; unfold waitQueue; simpl;
      try assumption; apply Forall_forall; assumption.
  - destruct w as [[[l r q rs pr] [t rv cn nf ns lg]] aw n].
    unfold waitQueue in *; simpl in *.
    destruct (mem f aw) eqn:M; [|discriminate].
    injection S1 as <-. unfold cancel_waiter; simpl.
    apply mem_In in M.
    destruct (future_done (mkEnv t rv cn nf ns lg) f) eqn:D.
    + apply future_done_true in D. simpl in D.
      destruct D as [D|D]; [|exfalso; apply (A6 f D M)].
      constructor; unfold waitQueue; simpl.
      * apply NoDup_filter. exact A1.
      * exact A3.
      * apply Forall_forall. intros c Hc.
        destruct (A4 c Hc) as [H|H]; [left|right; exact H].
        apply forget_In. split; [exact H|]. intros E. apply (P2 c Hc).
        rewrite E. exact D.
      * apply Forall_forall. intros g Hg. apply forget_In in Hg.
        apply A5. tauto.
      * apply Forall_forall. intros g Hg Hin. apply forget_In in Hin.
        apply (A6 g Hg). tauto.
    + constructor; unfold waitQueue; simpl.
      * apply NoDup_filter. exact A1.
      * exact A3.
      * apply Forall_forall. intros c Hc.
        destruct (Nat.eq_dec (future c) f) as [E|E].
        -- right. apply in_or_app. right. left. auto.
        -- destruct (A4 c Hc) as [H|H].
           ++ left. apply forget_In. split; assumption.
           ++ right. apply in_or_app. left. exact H.
      * apply Forall_forall. intros g Hg. apply forget_In in Hg.
        apply A5. tauto.
      * apply Forall_forall. intros g Hg Hin. apply forget_In in Hin.
        destruct Hin as [Hin Hne].
        apply in_app_or in Hg. destruct Hg as [Hg|[<-|[]]].
        -- apply (A6 g Hg Hin).
        -- apply Hne. reflexivity.
Qed.

Lemma callers_accounted_run es : forall w w',
  pending_futures w -> callers_accounted w ->
  run w es = Some w' -> callers_accounted w'.
Proof.
  induction es as [|e es IH]; intros w w' P A H; simpl in H.
  - injection H as <-. exact A.
  - destruct (step w e) as [w1|] eqn:S1; [|discriminate].
    apply IH with w1; [| |exact H].
    + eapply pending_futures_step; eassumption.
    + eapply callers_accounted_step; eassumption.
Qed.

(** ** The budget *)

Lemma budget_kept_boot L : budget_kept L (boot L).
Proof.
  constructor; unfold pendingReset; simpl; [reflexivity | lia | auto].
Qed.

Lemma budget_kept_step L w e w' :
  budget_kept L w -> step w e = Some w' -> budget_kept L w'.
Proof.
  intros [B1 B2 B3] S1.
  destruct e.
  - destruct w as [[[l r q rs pr] [t rv cn nf ns lg]] aw n].
    unfold pendingReset in *; simpl in *.
    unfold acquire_enter in S1; simpl in S1.
    destruct (r - rs =? 0); simpl in S1; injection S1 as <-;
      constructor; unfold pendingReset; simpl; assumption.
  - destruct w as [[[l r q rs pr] [t rv cn nf ns lg]] aw n].
    unfold pendingReset in *; simpl in *.
    destruct (mem f aw && mem f rv); [|discriminate].
    injection S1 as <-.
    constructor; unfold pendingReset; simpl; assumption.
  - destruct w as [[[l r q rs pr] [t rv cn nf ns lg]] aw n].
    unfold pendingReset in *; simpl in *.
    destruct n as [|n]; [discriminate|].
    injection S1 as <-. unfold acquire_exit; simpl.
    destruct pr; constructor; unfold pendingReset; simpl;
      try assumption; try lia; discriminate.
  - destruct (timer_fires _ _ S1)
      as (t & ok & dropped & q' & _ & _ & _ & _ & _ & _ & _ & _
          & _ & _ & Hl & Hr & _ & _ & _).
    constructor; rewrite ?Hr, ?Hl, ?B1; [reflexivity | lia | auto].
  - destruct w as [[[l r q rs pr] [t rv cn nf ns lg]] aw n].
    unfold pendingReset in *; simpl in *.
    injection S1 as <-.
    constructor; unfold pendingReset; simpl; assumption.
  - destruct w as [[[l r q rs pr] [t rv cn nf ns lg]] aw n].
    unfold pendingReset in *; simpl in *.
    destruct (mem f aw); [|discriminate].
    injection S1 as <-. unfold cancel_waiter; simpl.
    destruct (future_done _ f);
      constructor; unfold pendingReset; simpl; assumption.
Qed.

Lemma budget_kept_run L es : forall w w',
  budget_kept L w -> run w es = Some w' -> budget_kept L w'.
Proof.
  induction es as [|e es IH]; intros w w' B H; simpl in H.
  - injection H as <-. exact B.
  - destruct (step w e) as [w1|] eqn:S1; [|discriminate].
    apply IH with w1; [|exact H]. eapply budget_kept_step; eassumption.
Qed.

(* ================================================================== *)
(** * Construction *)
(* ================================================================== *)

(** C1 (the code departs from the claim).  The claim: after construction
    with capacity [L] the field [remaining] equals [L].  The constructor
    stores the literal 50 whatever its argument is: constructed with
    [limit = 10], the limiter has [remaining = 50], which is not its
    [limit]. *)
Theorem init_remaining_ignores_limit :
  (forall L, remaining (__init__ L) = 50 /\ limit (__init__ L) = L)
  /\ remaining (__init__ 10) <> limit (__init__ 10).
Proof.
  split; [intros L; split; reflexivity | simpl; lia].
Qed.

(** Only the default argument gives what the claim says. *)
Lemma init_remaining_default :
  remaining (__init__ default_limit) = limit (__init__ default_limit).
Proof. reflexivity. Qed.

(* ================================================================== *)
(** * The reservation counter *)
(* ================================================================== *)

(** C2 (the code departs from the claim).  The claim: in every execution
    from a fresh limiter the reservation counter stays in [[0, limit]].
    A limiter constructed with [limit = 1] admits two callers back to back
    ([remaining] starts at 50, so the gate sees 50 and then 49): the
    counter is 2, above the limit. *)
Theorem reserved_exceeds_limit :
  exists w,
    run (boot 1) [ev_acquire 0; ev_acquire 0] = Some w
    /\ reservedCount (state w) = 2
    /\ limit (self (state w)) = 1
    /\ ~ (0 <= reservedCount (state w) <= limit (self (state w))).
Proof.
  eexists. split; [reflexivity|].
  unfold reservedCount; simpl. repeat split; lia.
Qed.

(** The counter also passes a limit of 50, for which the constructor's
    literal is right: in [late_resume_trace] the fifty new callers are
    admitted before the released one resumes, and its resumption makes
    fifty-one. *)
Lemma reserved_exceeds_default_limit :
  exists w,
    run (boot 50) late_resume_trace = Some w
    /\ reservedCount (state w) = 51
    /\ limit (self (state w)) = 50.
Proof.
  eexists. split; [vm_compute; reflexivity|]. split; reflexivity.
Qed.

(* ================================================================== *)
(** * Admission *)
(* ================================================================== *)

(** C3.  [acquire] suspends the caller on a queued entry if and only if
    [remaining - reservedCount] is exactly 0 at entry.  When it is not 0,
    negative or positive, the caller is admitted at once: nothing is
    enqueued and the reservation counter goes up by one.  When it is 0,
    an entry with the caller's priority and a fresh future is enqueued and
    the counter is left alone. *)
Theorem acquire_suspends_iff_zero p st :
  let r := acquire_enter p st in
  ((exists f, fst r = Suspended f) <-> available st = 0)
  /\ (fst r = Granted <-> available st <> 0)
  /\ (available st <> 0 ->
      waitQueue (snd r) = waitQueue st
      /\ reservedCount (snd r) = reservedCount st + 1)
  /\ (available st = 0 ->
      exists c,
        fst r = Suspended (future c)
        /\ waitQueue (snd r) = PriorityQueue.put_nowait c (waitQueue st)
        /\ priority c = p
        /\ future c = next_future (env st)
        /\ reservedCount (snd r) = reservedCount st).
Proof.
  destruct st as [[l r q rs pr] [t rv cn nf ns lg]].
  unfold acquire_enter, available, waitQueue, reservedCount; simpl.
  destruct (Z.eqb_spec (r - rs) 0) as [E|E]; simpl.
  - repeat split; intros; try (exfalso; congruence || lia); eauto.
    exists (mkContainer p ns nf). simpl. repeat split; reflexivity.
  - repeat split; intros; try (exfalso; congruence || lia); eauto.
    destruct H as [f H]; discriminate.
Qed.

(** An admission through a negative [available]. *)
Example acquire_admits_when_negative :
  let st := mkState (mkLimiter 1 1 [] 2 false) idle in
  available st = -1 /\ fst (acquire_enter 0 st) = Granted.
Proof. split; reflexivity. Qed.

(* ================================================================== *)
(** * Leaving the scope *)
(* ================================================================== *)

(** C4.  For an admitted caller the exit bookkeeping runs once on every
    path: whatever the gated block does to the state and whether it
    returns a value or raises (an error, a cancellation, the closing of
    the generator), the scope ends in the state the block left, with
    the timer armed if none was pending, the reservation counter one
    lower and [remaining] one lower, and hands the block's own outcome
    to the caller unchanged. *)
Theorem scope_exit_runs_once (A : Type) (body : Block A) st o st1 :
  body (reserve st) = (o, st1) ->
  exists st2,
    acquire_scope body st = (o, st2)
    /\ st2 = acquire_exit st1
    /\ reservedCount st2 = reservedCount st1 - 1
    /\ remaining (self st2) = remaining (self st1) - 1
    /\ pendingReset st2 = true
    /\ timers (env st2) =
       (if pendingReset st1 then timers (env st1) else S (timers (env st1)))
    /\ waitQueue st2 = waitQueue st1
    /\ limit (self st2) = limit (self st1).
Proof.
  intros H. exists (acquire_exit st1).
  unfold acquire_scope, try_finally, finally_block. rewrite H.
  destruct st1 as [[l r q rs pr] [t rv cn nf ns lg]].
  unfold acquire_exit, reservedCount, pendingReset, waitQueue; simpl.
  destruct pr; simpl; repeat split; reflexivity.
Qed.

Lemma scope_exit_runs_once_witness :
  cancelled_block (reserve (state (boot 5)))
    = (Raised CancelledError, reserve (state (boot 5)))
  /\ exists st2,
       acquire_scope cancelled_block (state (boot 5))
         = (Raised CancelledError, st2)
       /\ st2 = acquire_exit (reserve (state (boot 5)))
       /\ reservedCount st2 = reservedCount (reserve (state (boot 5))) - 1
       /\ remaining (self st2)
          = remaining (self (reserve (state (boot 5)))) - 1
       /\ pendingReset st2 = true
       /\ timers (env st2) =
          (if pendingReset (reserve (state (boot 5)))
           then timers (env (reserve (state (boot 5))))
           else S (timers (env (reserve (state (boot 5))))))
       /\ waitQueue st2 = waitQueue (reserve (state (boot 5)))
       /\ limit (self st2) = limit (self (reserve (state (boot 5)))).
Proof.
  split; [reflexivity|].
  apply (scope_exit_runs_once unit cancelled_block (state (boot 5))
           (Raised CancelledError) (reserve (state (boot 5)))).
  reflexivity.
Defined.

(** The three ways out of the scope, on one state. *)
Example scope_paths st :
  snd (acquire_scope (fun s => (Returned tt, s)) st)
    = acquire_exit (reserve st)
  /\ snd (acquire_scope (fun s => (@Raised unit (Exception 0), s)) st)
    = acquire_exit (reserve st)
  /\ snd (acquire_scope (fun s => (@Raised unit GeneratorExit, s)) st)
    = acquire_exit (reserve st).
Proof. repeat split; reflexivity. Qed.

(* ================================================================== *)
(** * The replenishment callback *)
(* ================================================================== *)

(** An execution reaches the limiter [overbooked]: 50 callers are
    admitted, one queues, one leaves and arms the timer. *)
Lemma overbooked_reached :
  exists w,
    run (boot 1) (repeat (ev_acquire 0) 51 ++ [ev_exit]) = Some w
    /\ self (state w) = self overbooked
    /\ timers (env (state w)) = 1%nat.
Proof.
  eexists. split; [vm_compute; reflexivity|]. split; reflexivity.
Qed.

(** With more callers inside the scope than the limit, [toRelease] is
    negative ([min(1, 1 - 49) = -48]) and the loop over [range(-48)] does
    not run: the callback returns, nothing comes out of the queue and no
    future gets a result. *)
Lemma reset_negative_to_release :
  to_release overbooked = -48
  /\ (exists st',
        _reset overbooked = (Returned tt, st')
        /\ waitQueue st' = waitQueue overbooked
        /\ resolved (env st') = resolved (env overbooked))
  /\ ~ dequeues_exactly_to_release overbooked.
Proof.
  split; [reflexivity|]. split.
  - eexists. split; [reflexivity|]. split; reflexivity.
  - intros H. specialize (H _ eq_refl). vm_compute in H. discriminate.
Qed.

(** The execution [first_cancelled_trace] reaches [first_cancelled]. *)
Lemma first_cancelled_reached : reachable 50 first_cancelled.
Proof. exists first_cancelled_trace. vm_compute. reflexivity. Qed.

(** When the waiter of an entry was cancelled while it queued, the
    callback does not run to its end: [set_result] raises on the entry's
    future, after the entry came out of the queue; the flag stays clear
    and no timer is scheduled although an entry is still queued. *)
Lemma reset_raises_on_cancelled_waiter :
  pop_timer (state first_cancelled) = Some first_cancelled_state
  /\ fst (_reset first_cancelled_state) = Raised InvalidStateError
  /\ waitQueue (snd (_reset first_cancelled_state))
     = [mkContainer 3 1%nat 1%nat]
  /\ resolved (env (snd (_reset first_cancelled_state))) = []
  /\ pendingReset (snd (_reset first_cancelled_state)) = false
  /\ timers (env (snd (_reset first_cancelled_state))) = 0%nat.
Proof. repeat split; reflexivity. Qed.

(** C5 (amended).  Every run of the replenishment callback in which the
    futures of the entries it takes out are pending (none was cancelled
    while it queued) returns, and does these steps in order: it clears
    the pending-reset flag, sets [remaining] to [limit], computes
    [toRelease = min(queue size, remaining - reservedCount)] with the new
    [remaining], takes [max(0, toRelease)] entries out of the queue (none
    when [toRelease] is negative) and gives the future of each its result,
    in the order they come out, and re-arms the timer, setting the flag,
    if and only if the queue is still non-empty afterwards. *)
Theorem reset_steps st cs q' :
  PriorityQueue.take (Z.to_nat (to_release st)) (waitQueue st)
    = Some (cs, q') ->
  NoDup (map future cs) ->
  Forall (pending (env st)) cs ->
  exists st',
    _reset st = (Returned tt, st')
    /\ to_release st
       = Z.min (PriorityQueue.qsize (waitQueue st))
               (limit (self st) - reservedCount st)
    /\ Z.of_nat (length cs) = Z.max 0 (to_release st)
    /\ remaining (self st') = limit (self st)
    /\ waitQueue st' = q'
    /\ PriorityQueue.qsize q'
       = PriorityQueue.qsize (waitQueue st) - Z.max 0 (to_release st)
    /\ resolved (env st') = resolved (env st) ++ map future cs
    /\ pendingReset st' = negb (PriorityQueue.qsize q' =? 0)
    /\ timers (env st') =
       (if PriorityQueue.qsize q' =? 0
        then timers (env st) else S (timers (env st))).
Proof.
  intros T N P.
  pose proof (_reset_returns st cs q' T N P) as R.
  exists (after_reset cs q' st).
  pose proof (take_length _ _ _ _ T) as [Lc Lq].
  assert (Z.of_nat (length cs) = Z.max 0 (to_release st)) as Hc
    by (rewrite Lc; lia).
  repeat split; try assumption; try reflexivity.
  - unfold PriorityQueue.qsize. rewrite Lq, <- Hc, Lc. lia.
  - unfold after_reset; simpl.
    destruct (PriorityQueue.qsize q' =? 0); reflexivity.
Qed.

Lemma reset_steps_witness :
  PriorityQueue.take (Z.to_nat (to_release roomy)) (waitQueue roomy)
    = Some ([mkContainer 0 0%nat 0%nat; mkContainer 1 1%nat 1%nat], [])
  /\ NoDup (map future [mkContainer 0 0%nat 0%nat; mkContainer 1 1%nat 1%nat])
  /\ Forall (pending (env roomy))
       [mkContainer 0 0%nat 0%nat; mkContainer 1 1%nat 1%nat]
  /\ exists st',
       _reset roomy = (Returned tt, st')
       /\ to_release roomy
          = Z.min (PriorityQueue.qsize (waitQueue roomy))
                  (limit (self roomy) - reservedCount roomy)
       /\ Z.of_nat
            (length [mkContainer 0 0%nat 0%nat; mkContainer 1 1%nat 1%nat])
          = Z.max 0 (to_release roomy)
       /\ remaining (self st') = limit (self roomy)
       /\ waitQueue st' = []
       /\ PriorityQueue.qsize []
          = PriorityQueue.qsize (waitQueue roomy)
            - Z.max 0 (to_release roomy)
       /\ resolved (env st')
          = resolved (env roomy)
            ++ map future
                 [mkContainer 0 0%nat 0%nat; mkContainer 1 1%nat 1%nat]
       /\ pendingReset st' = negb (PriorityQueue.qsize [] =? 0)
       /\ timers (env st') =
          (if PriorityQueue.qsize [] =? 0
           then timers (env roomy) else S (timers (env roomy))).
Proof.
  assert (PriorityQueue.take (Z.to_nat (to_release roomy)) (waitQueue roomy)
          = Some ([mkContainer 0 0%nat 0%nat; mkContainer 1 1%nat 1%nat], []))
    as T by reflexivity.
  assert (NoDup (map future
                   [mkContainer 0 0%nat 0%nat; mkContainer 1 1%nat 1%nat]))
    as N.
  { simpl. constructor; [simpl; intros [H|[]]; discriminate|].
    constructor; [simpl; tauto | constructor]. }
  assert (Forall (pending (env roomy))
            [mkContainer 0 0%nat 0%nat; mkContainer 1 1%nat 1%nat]) as P.
  { constructor; [reflexivity|]. constructor; [reflexivity | constructor]. }
  split; [exact T|]. split; [exact N|]. split; [exact P|].
  apply (reset_steps roomy
           [mkContainer 0 0%nat 0%nat; mkContainer 1 1%nat 1%nat] [] T N P).
Defined.

(** C9.  When the replenishment callback runs with nothing queued, it
    returns, and after it [remaining] equals [limit] and the pending-reset
    flag is false. *)
Theorem reset_with_empty_queue st :
  waitQueue st = [] ->
  exists st',
    _reset st = (Returned tt, st')
    /\ remaining (self st') = limit (self st')
    /\ limit (self st') = limit (self st)
    /\ pendingReset st' = false
    /\ timers (env st') = timers (env st).
Proof.
  intros E.
  assert (PriorityQueue.take (range_len (to_release st)) (waitQueue st)
          = Some ([], [])) as T.
  { pose proof (range_len_to_release st) as Hn. rewrite E in *.
    simpl in Hn. destruct (range_len (to_release st)); [reflexivity | lia]. }
  pose proof (_reset_returns st [] [] T (NoDup_nil _) (Forall_nil _)) as R.
  exists (after_reset [] [] st). split; [exact R|].
  repeat split; reflexivity.
Qed.

Lemma reset_with_empty_queue_witness :
  waitQueue drained = []
  /\ exists st',
       _reset drained = (Returned tt, st')
       /\ remaining (self st') = limit (self st')
       /\ limit (self st') = limit (self drained)
       /\ pendingReset st' = false
       /\ timers (env st') = timers (env drained).
Proof.
  split; [reflexivity|]. apply (reset_with_empty_queue drained). reflexivity.
Defined.

(** C10.  The replenishment callback leaves the reservation counter as it
    found it on every path, whether it returns or an exception of
    [set_result] leaves it half way (and so the limit, and the counters
    that hand out futures and sequence numbers, and the cancelled
    futures): it writes [remaining], the flag, the queue, the futures'
    results, the schedule and the log. *)
Theorem reset_keeps_reserved st :
  reservedCount (snd (_reset st)) = reservedCount st
  /\ limit (self (snd (_reset st))) = limit (self st)
  /\ next_future (env (snd (_reset st))) = next_future (env st)
  /\ next_sequence (env (snd (_reset st))) = next_sequence (env st)
  /\ cancelled (env (snd (_reset st))) = cancelled (env st)
  /\ (fst (_reset st) = Returned tt
      \/ fst (_reset st) = Raised InvalidStateError).
Proof.
  destruct (_reset_shape st) as (ok & dropped & q' & _ & _ & _ & C).
  destruct C as [(R & _)|(R & _)]; rewrite R; simpl;
    repeat split; auto.
Qed.

(** Both paths of the callback, on which the counter stays at 49. *)
Example reset_keeps_reserved_paths :
  fst (_reset first_cancelled_state) = Raised InvalidStateError
  /\ reservedCount (snd (_reset first_cancelled_state)) = 49
  /\ reservedCount first_cancelled_state = 49
  /\ fst (_reset overbooked) = Returned tt
  /\ reservedCount (snd (_reset overbooked)) = 49.
Proof. repeat split; reflexivity. Qed.

(* ================================================================== *)
(** * The notification hook *)
(* ================================================================== *)

(** C8.  Calling [update] any number of times, with any durations, leaves
    the limiter object as it was ([limit], [remaining], the reservation
    counter, the flag and the queue), schedules nothing and resolves
    nothing; it only adds one warning per call to the log. *)
Theorem update_only_logs rs : forall st,
  self (updates rs st) = self st
  /\ timers (env (updates rs st)) = timers (env st)
  /\ resolved (env (updates rs st)) = resolved (env st)
  /\ next_future (env (updates rs st)) = next_future (env st)
  /\ next_sequence (env (updates rs st)) = next_sequence (env st)
  /\ log (env (updates rs st)) = log (env st) ++ map warning_exceeded rs
  /\ cancelled (env (updates rs st)) = cancelled (env st).
Proof.
  unfold updates.
  induction rs as [|r rs IH]; intros st; simpl.
  - rewrite app_nil_r. repeat split; reflexivity.
  - destruct (IH (update r st)) as (H1 & H2 & H3 & H4 & H5 & H6 & H7).
    rewrite H1, H2, H3, H4, H5, H6, H7.
    destruct st as [s [t rv cn nf ns lg]]. simpl.
    rewrite <- app_assoc. repeat split; reflexivity.
Qed.

(* ================================================================== *)
(** * The timer *)
(* ================================================================== *)

(** C6.  In every state of every execution at most one replenishment
    timer is pending, and one is pending exactly when the pending-reset
    flag is set.  The scope exit schedules a timer only when it finds the
    flag false, and sets it; the callback runs with its own handle off
    the schedule, clears the flag, and schedules again only together with
    setting it. *)
Theorem at_most_one_timer L w :
  reachable L w ->
  (timers (env (state w)) <= 1)%nat
  /\ (timers (env (state w)) = 1%nat <-> pendingReset (state w) = true)
  /\ (timers (env (acquire_exit (state w))) = 1%nat
      /\ pendingReset (acquire_exit (state w)) = true)
  /\ (forall w', step w ev_timer = Some w' ->
        pendingReset (state w) = true
        /\ (timers (env (state w')) <= 1)%nat
        /\ (timers (env (state w')) = 1%nat
            <-> pendingReset (state w') = true)).
Proof.
  intros R. pose proof (reachable_invariant _ _ R) as I.
  destruct I as [_ I2 _ _].
  assert (forall v, invariant v ->
            (timers (env (state v)) <= 1)%nat
            /\ (timers (env (state v)) = 1%nat
                <-> pendingReset (state v) = true)) as K.
  { intros v [_ J _ _]. rewrite J.
    destruct (pendingReset (state v)); split; try lia;
      split; congruence. }
  split; [apply K, (reachable_invariant _ _ R)|].
  split; [apply K, (reachable_invariant _ _ R)|].
  split.
  - destruct w as [[[l r q rs pr] [t rv cn nf ns lg]] aw n].
    unfold pendingReset, acquire_exit in *; simpl in *.
    destruct pr; simpl; split; congruence.
  - intros w' S1. split.
    + destruct w as [[[l r q rs pr] [t rv cn nf ns lg]] aw n].
      unfold pendingReset, pop_timer in *; simpl in *.
      destruct pr; [reflexivity|]. subst t. discriminate.
    + apply K. eapply invariant_step; [|exact S1].
      apply (reachable_invariant _ _ R).
Qed.

Lemma at_most_one_timer_witness :
  reachable 1 after_one_request
  /\ (timers (env (state after_one_request)) <= 1)%nat
  /\ (timers (env (state after_one_request)) = 1%nat
      <-> pendingReset (state after_one_request) = true)
  /\ (timers (env (acquire_exit (state after_one_request))) = 1%nat
      /\ pendingReset (acquire_exit (state after_one_request)) = true)
  /\ (forall w', step after_one_request ev_timer = Some w' ->
        pendingReset (state after_one_request) = true
        /\ (timers (env (state w')) <= 1)%nat
        /\ (timers (env (state w')) = 1%nat
            <-> pendingReset (state w') = true)).
Proof.
  assert (reachable 1 after_one_request) as R
    by (exists [ev_acquire 0; ev_exit]; reflexivity).
  split; [exact R|]. apply (at_most_one_timer 1 after_one_request). exact R.
Defined.

(* ================================================================== *)
(** * The order of release *)
(* ================================================================== *)

Lemma sorted_prefix (l1 l2 : list PriorityRequestContainer) :
  StronglySorted precedes (l1 ++ l2) ->
  StronglySorted precedes l1
  /\ (forall a b, In a l1 -> In b l2 -> precedes a b).
Proof.
  induction l1 as [|x l1 IH]; simpl; intros S1.
  - split; [constructor | intros a b []].
  - apply StronglySorted_inv in S1. destruct S1 as [S1 F].
    destruct (IH S1) as [S2 B]. rewrite Forall_forall in F. split.
    + constructor; [exact S2|]. apply Forall_forall. intros b Hb.
      apply F, in_or_app. left. exact Hb.
    + intros a b [<-|Ha] Hb; [apply F, in_or_app; right; exact Hb|].
      apply B; assumption.
Qed.

(** An entry on which [set_result] raises in an execution belongs to a
    waiter that was cancelled. *)
Lemma dropped_is_cancelled w ok bad q' :
  pending_futures w ->
  PriorityQueue.take (length ok + length [bad]) (waitQueue (state w))
    = Some (ok ++ [bad], q') ->
  In (future bad) (resolved (env (state w)) ++ map future ok)
  \/ In (future bad) (cancelled (env (state w))) ->
  In (future bad) (cancelled (env (state w))).
Proof.
  intros [P1 P2 _ _ _ _ _] T [D|D]; [exfalso|exact D].
  pose proof (timer_keeps_entries _ _ _ _ T) as P.
  assert (NoDup (map future ok ++ future bad :: map future q')) as N.
  { change (future bad :: map future q') with (map future (bad :: q')).
    rewrite <- map_app. eapply Permutation_NoDup; [|exact P1].
    apply Permutation_map. exact P. }
  apply in_app_or in D. destruct D as [D|D].
  - rewrite Forall_forall in P2. apply (P2 bad); [|exact D].
    eapply Permutation_in; [apply Permutation_sym; exact P|].
    apply in_or_app. right. left. reflexivity.
  - apply NoDup_remove_2 in N. apply N. apply in_or_app. left. exact D.
Qed.

(** Of two queued entries of equal priority the one queued first comes
    out first. *)
Lemma first_of_two_comes_out (q : PriorityQueue.t) A B :
  distinct q -> Permutation q [A; B] ->
  priority A = priority B -> (sequence A < sequence B)%nat ->
  PriorityQueue.take 1 q = Some ([A], [B]).
Proof.
  intros D P E Lt. simpl.
  destruct (PriorityQueue.get_nowait q) as [[c q1]|] eqn:G.
  - assert (PriorityQueue.get_nowait [A; B] = Some (A, [B])) as G2.
    { simpl. assert (container_lt B A = false) as ->; [|reflexivity].
      apply container_lt_false. unfold precedes. lia. }
    destruct (get_nowait_layout _ _ _ _ _ _ D P G G2) as [-> P1].
    apply Permutation_sym, Permutation_length_1_inv in P1. subst q1.
    reflexivity.
  - destruct q; [|discriminate]. apply Permutation_nil in P. discriminate.
Qed.

(** Sequence numbers follow arrival: a caller that queues gets a number
    above those of all the entries that wait already. *)
Lemma arrival_order L w p w' :
  reachable L w ->
  available (state w) = 0 ->
  step w (ev_acquire p) = Some w' ->
  exists c,
    waitQueue (state w') = PriorityQueue.put_nowait c (waitQueue (state w))
    /\ priority c = p
    /\ awaiting w' = future c :: awaiting w
    /\ Forall (fun b => (sequence b < sequence c)%nat) (waitQueue (state w)).
Proof.
  intros R A S1. apply reachable_invariant in R. destruct R as [_ _ _ I4].
  destruct w as [[[l r q rs pr] [t rv cn nf ns lg]] aw n].
  unfold available, waitQueue in *; simpl in *.
  unfold acquire_enter in S1; simpl in S1.
  apply Z.eqb_eq in A. rewrite A in S1. simpl in S1.
  injection S1 as <-. simpl.
  exists (mkContainer p ns nf). repeat split. exact I4.
Qed.

(** In the execution [first_cancelled_trace] A and B queue with priority
    3, A first, and A's waiter is cancelled; [toRelease] is 1 when the
    timer fires; A comes out of the queue and [set_result] raises on its
    future: A is not released. *)
Lemma cancelled_first_waiter_not_released :
  reachable 50 first_cancelled
  /\ waitQueue (state first_cancelled)
     = [mkContainer 3 1%nat 1%nat; mkContainer 3 0%nat 0%nat]
  /\ to_release (state first_cancelled) = 1
  /\ ~ first_of_two_released first_cancelled.
Proof.
  split; [exact first_cancelled_reached|].
  split; [reflexivity|]. split; [reflexivity|].
  intros H.
  assert (step first_cancelled ev_timer
          = Some (mkWorld (snd (_reset first_cancelled_state))
                    (awaiting first_cancelled) (in_scope first_cancelled)))
    as S1 by reflexivity.
  destruct (H (mkContainer 3 0%nat 0%nat) (mkContainer 3 1%nat 1%nat) _
              (perm_swap _ _ _) eq_refl (Nat.lt_0_succ 0) eq_refl S1)
    as [Hin _].
  vm_compute in Hin. exact Hin.
Qed.

(** C7 (amended).  Whenever the replenishment timer fires in an
    execution, the entries it releases come out in serving order, lower
    priority value first and, among equal priorities, lower sequence
    number (earlier arrival) first; their futures get their results in
    that order; each released entry precedes, in the same order, each
    entry that stays queued; and at most [max(0, toRelease)] entries are
    released, exactly that many when no queued waiter was cancelled.
    Besides the released entries only an entry of a cancelled waiter can
    leave the queue.  In particular, if the queue holds two entries of
    equal priority, A queued before B, A's waiter was not cancelled and
    [toRelease] is 1, then A is released and B, alone, stays queued. *)
Theorem release_order L w w' :
  reachable L w ->
  step w ev_timer = Some w' ->
  exists cs dropped,
    resolved (env (state w')) = resolved (env (state w)) ++ map future cs
    /\ Permutation (waitQueue (state w))
         (cs ++ dropped ++ waitQueue (state w'))
    /\ StronglySorted precedes cs
    /\ (forall a b,
          In a cs -> In b (dropped ++ waitQueue (state w')) -> precedes a b)
    /\ Z.of_nat (length cs) <= Z.max 0 (to_release (state w))
    /\ (dropped = []
        \/ exists bad,
             dropped = [bad]
             /\ In (future bad) (cancelled (env (state w))))
    /\ ((forall c, In c (waitQueue (state w)) ->
           ~ In (future c) (cancelled (env (state w)))) ->
        dropped = []
        /\ Z.of_nat (length cs) = Z.max 0 (to_release (state w)))
    /\ (forall A B,
          Permutation (waitQueue (state w)) [A; B] ->
          priority A = priority B ->
          (sequence A < sequence B)%nat ->
          to_release (state w) = 1 ->
          ~ In (future A) (cancelled (env (state w))) ->
          cs = [A] /\ dropped = [] /\ waitQueue (state w') = [B]).
Proof.
  intros R S1.
  pose proof (reachable_invariant _ _ R) as [_ _ I3 _].
  pose proof (reachable_pending_futures _ _ R) as PF.
  destruct (timer_fires _ _ S1)
    as (t & ok & dropped & q' & _ & T & _ & _ & Hq & Hres & _ & _ & _ & _
        & _ & _ & _ & _ & C).
  destruct (take_order _ _ _ _ I3 T) as (Hs & Hb & _).
  apply sorted_prefix in Hs. destruct Hs as [Hs Hd].
  pose proof (timer_keeps_entries _ _ _ _ T) as P.
  assert (dropped = []
          \/ exists bad,
               dropped = [bad]
               /\ In (future bad) (cancelled (env (state w)))) as Dr.
  { destruct C as [(-> & _)|(_ & _ & _ & bad & -> & B)]; [left; reflexivity|].
    right. exists bad. split; [reflexivity|].
    eapply dropped_is_cancelled; eassumption. }
  assert ((forall c, In c (waitQueue (state w)) ->
             ~ In (future c) (cancelled (env (state w)))) ->
          dropped = []) as Nc.
  { intros H. destruct Dr as [Dr|(bad & -> & B)]; [exact Dr|].
    exfalso. apply (H bad); [|exact B].
    eapply Permutation_in; [apply Permutation_sym; exact P|].
    apply in_or_app. right. left. reflexivity. }
  assert (dropped = [] ->
          Z.of_nat (length ok) = Z.max 0 (to_release (state w))) as Len.
  { intros ->. destruct C as [(_ & L1 & _)|(_ & _ & _ & bad & D & _)];
      [|discriminate].
    rewrite L1. unfold range_len. lia. }
  exists ok, dropped. rewrite Hq, Hres.
  split; [reflexivity|]. split; [exact P|]. split; [exact Hs|].
  split.
  { intros a b Ha Hb'. apply in_app_or in Hb'. destruct Hb' as [Hb'|Hb'].
    - apply Hd; assumption.
    - apply Hb; [apply in_or_app; left; exact Ha | exact Hb']. }
  split.
  { destruct C as [(_ & L1 & _)|(L1 & _)]; unfold range_len in L1; lia. }
  split; [exact Dr|].
  split; [intros H; split; [apply Nc|apply Len, Nc]; exact H|].
  intros A B PAB E Lt TR NA.
  pose proof (first_of_two_comes_out _ A B I3 PAB E Lt) as T1.
  assert (range_len (to_release (state w)) = 1%nat) as R1
    by (rewrite TR; reflexivity).
  destruct C as [(-> & L1 & _)|(L1 & _ & _ & bad & -> & _)].
  - rewrite app_nil_r, Nat.add_0_r, L1, R1, T1 in T.
    injection T as <- <-. auto.
  - exfalso. rewrite R1 in L1.
    assert (ok = []) as -> by (destruct ok; [reflexivity | simpl in L1; lia]).
    simpl in T. change (PriorityQueue.take 1 (waitQueue (state w))
                        = Some ([bad], q')) in T.
    rewrite T1 in T. injection T as <- <-.
    destruct Dr as [Dr|(b2 & Eb & B2)]; [discriminate|].
    injection Eb as <-. contradiction.
Qed.

Lemma release_order_witness :
  reachable 50 two_waiters
  /\ step two_waiters ev_timer = Some one_released
  /\ exists cs dropped,
       resolved (env (state one_released))
         = resolved (env (state two_waiters)) ++ map future cs
       /\ Permutation (waitQueue (state two_waiters))
            (cs ++ dropped ++ waitQueue (state one_released))
       /\ StronglySorted precedes cs
       /\ (forall a b,
             In a cs -> In b (dropped ++ waitQueue (state one_released)) ->
             precedes a b)
       /\ Z.of_nat (length cs) <= Z.max 0 (to_release (state two_waiters))
       /\ (dropped = []
           \/ exists bad,
                dropped = [bad]
                /\ In (future bad) (cancelled (env (state two_waiters))))
       /\ ((forall c, In c (waitQueue (state two_waiters)) ->
              ~ In (future c) (cancelled (env (state two_waiters)))) ->
           dropped = []
           /\ Z.of_nat (length cs)
              = Z.max 0 (to_release (state two_waiters)))
       /\ (forall A B,
             Permutation (waitQueue (state two_waiters)) [A; B] ->
             priority A = priority B ->
             (sequence A < sequence B)%nat ->
             to_release (state two_waiters) = 1 ->
             ~ In (future A) (cancelled (env (state two_waiters))) ->
             cs = [A] /\ dropped = []
             /\ waitQueue (state one_released) = [B]).
Proof.
  assert (reachable 50 two_waiters) as R
    by (exists two_waiters_trace; vm_compute; reflexivity).
  assert (step two_waiters ev_timer = Some one_released) as S1
    by (vm_compute; reflexivity).
  split; [exact R|]. split; [exact S1|].
  apply (release_order 50 two_waiters one_released R S1).
Defined.

(** In that scenario [toRelease] is 1; A (sequence 0, future 0) is
    released, B (sequence 1, future 1) stays queued, and the timer is
    armed again. *)
Example equal_priorities_first_come_first_served :
  waitQueue (state two_waiters)
    = [mkContainer 3 1%nat 1%nat; mkContainer 3 0%nat 0%nat]
  /\ to_release (state two_waiters) = 1
  /\ resolved (env (state two_waiters)) = []
  /\ resolved (env (state one_released)) = [0%nat]
  /\ waitQueue (state one_released) = [mkContainer 3 1%nat 1%nat]
  /\ pendingReset (state one_released) = true.
Proof. repeat split; reflexivity. Qed.

(** A lower priority value overtakes earlier arrivals: with priorities
    5, 1, 5 queued in this order and room for two, the entry of priority 1
    comes out first, then the first of the two of priority 5. *)
Example priorities_before_arrival :
  PriorityQueue.take 2
    [mkContainer 5 2%nat 2%nat; mkContainer 1 1%nat 1%nat;
     mkContainer 5 0%nat 0%nat]
  = Some ([mkContainer 1 1%nat 1%nat; mkContainer 5 0%nat 0%nat],
          [mkContainer 5 2%nat 2%nat]).
Proof. reflexivity. Qed.

(* ================================================================== *)
(** * Further properties of the limiter *)
(* ================================================================== *)

Lemma count_cons p e es :
  count p (e :: es) = ((if p e then 1 else 0) + count p es)%nat.
Proof. unfold count. simpl. destruct (p e); reflexivity. Qed.

Lemma run_cons w e es :
  run w (e :: es)
  = match step w e with None => None | Some w' => run w' es end.
Proof. reflexivity. Qed.

(** One transition keeps the balance of callers: who arrives is inside the
    scope or waits; who leaves was inside the scope; who is cancelled
    while waiting was waiting. *)
Lemma callers_balance_step w e w' :
  callers_accounted w -> step w e = Some w' ->
  (in_scope w + length (awaiting w) + (if is_acquire e then 1 else 0)
   = in_scope w' + length (awaiting w') + (if is_exit e then 1 else 0)
     + (if is_cancel e then 1 else 0))%nat.
Proof.
  destruct w as [st aw n]. intros [A1 _ _ _ _]. simpl in *.
  destruct e; simpl.
  - destruct (acquire_enter priority0 st) as [[|f] st1];
      intros H; injection H as <-; simpl; lia.
  - destruct (mem f aw) eqn:M; simpl; [|discriminate].
    destruct (mem f (resolved (env st))); [|discriminate].
    intros H; injection H as <-; simpl.
    apply mem_In in M. pose proof (forget_length f aw A1 M). lia.
  - destruct n as [|n]; [discriminate|].
    intros H; injection H as <-; simpl. lia.
  - destruct (pop_timer st) as [st1|]; [|discriminate].
    intros H; injection H as <-; simpl. lia.
  - intros H; injection H as <-; simpl. lia.
  - destruct (mem f aw) eqn:M; simpl; [|discriminate].
    intros H; injection H as <-; simpl.
    apply mem_In in M. pose proof (forget_length f aw A1 M). lia.
Qed.

Lemma callers_balance_run es : forall w w',
  pending_futures w -> callers_accounted w -> run w es = Some w' ->
  (in_scope w + length (awaiting w) + count is_acquire es
   = in_scope w' + length (awaiting w') + count is_exit es
     + count is_cancel es)%nat.
Proof.
  induction es as [|e es IH]; intros w w' P A H; simpl in H.
  - injection H as <-. unfold count; simpl. lia.
  - destruct (step w e) as [w1|] eqn:S1; [|discriminate].
    pose proof (callers_balance_step _ _ _ A S1) as B1.
    pose proof (pending_futures_step _ _ _ P S1) as P1.
    pose proof (callers_accounted_step _ _ _ P A S1) as A1.
    specialize (IH _ _ P1 A1 H). rewrite !count_cons. lia.
Qed.

(** X1.  In every execution the reservation counter is the number of
    callers that are inside the scope (admitted and not yet out of the
    [finally] block); so it is never negative. *)
Theorem reserved_counts_callers_in_scope L w :
  reachable L w ->
  reservedCount (state w) = Z.of_nat (in_scope w)
  /\ 0 <= reservedCount (state w).
Proof.
  intros R. apply reachable_invariant in R. destruct R as [I1 _ _ _].
  split; [exact I1 | rewrite I1; lia].
Qed.

Lemma reserved_counts_callers_in_scope_witness :
  reachable 50 busy
  /\ reservedCount (state busy) = Z.of_nat (in_scope busy)
  /\ 0 <= reservedCount (state busy).
Proof.
  assert (reachable 50 busy) as R
    by (exists busy_trace; vm_compute; reflexivity).
  split; [exact R|]. apply (reserved_counts_callers_in_scope 50 busy R).
Defined.

(** X2.  In every execution the waiting callers and the queue agree up to
    cancellation: the futures that callers wait on are pairwise
    different; every waiting caller is either still in the queue or has
    been released (its future has its result), so that it can resume;
    every queued entry has its caller waiting on its future, unless that
    caller was cancelled while it waited, and then the entry stays in the
    queue with a cancelled future; and nobody waits on a cancelled
    future. *)
Theorem waiting_callers_accounted L w :
  reachable L w ->
  NoDup (awaiting w)
  /\ (forall f, In f (awaiting w) ->
        In f (map future (waitQueue (state w)))
        \/ In f (resolved (env (state w))))
  /\ (forall c, In c (waitQueue (state w)) ->
        In (future c) (awaiting w)
        \/ In (future c) (cancelled (env (state w))))
  /\ (forall f, In f (cancelled (env (state w))) -> ~ In f (awaiting w)).
Proof.
  intros [es H].
  pose proof (callers_accounted_run es _ _ (pending_futures_boot L)
                (callers_accounted_boot L) H) as [A1 _ A4 A5 A6].
  rewrite Forall_forall in A4, A5, A6. auto.
Qed.

Lemma waiting_callers_accounted_witness :
  reachable 50 busy_cancel
  /\ NoDup (awaiting busy_cancel)
  /\ (forall f, In f (awaiting busy_cancel) ->
        In f (map future (waitQueue (state busy_cancel)))
        \/ In f (resolved (env (state busy_cancel))))
  /\ (forall c, In c (waitQueue (state busy_cancel)) ->
        In (future c) (awaiting busy_cancel)
        \/ In (future c) (cancelled (env (state busy_cancel))))
  /\ (forall f, In f (cancelled (env (state busy_cancel))) ->
        ~ In f (awaiting busy_cancel)).
Proof.
  assert (reachable 50 busy_cancel) as R
    by (exists busy_cancel_trace; vm_compute; reflexivity).
  split; [exact R|]. apply (waiting_callers_accounted 50 busy_cancel R).
Defined.

(** X3.  In every execution each future gets its result at most once and
    only while it is pending: the futures that have a result are pairwise
    different and none of them was cancelled; the futures of the queued
    entries are pairwise different and none has a result; so the future
    of a queued entry is done only when its waiter was cancelled. *)
Theorem futures_resolved_once L w :
  reachable L w ->
  NoDup (resolved (env (state w)))
  /\ (forall f, In f (resolved (env (state w))) ->
        ~ In f (cancelled (env (state w))))
  /\ NoDup (map future (waitQueue (state w)))
  /\ (forall c, In c (waitQueue (state w)) ->
        ~ In (future c) (resolved (env (state w))))
  /\ (forall c, In c (waitQueue (state w)) ->
        future_done (env (state w)) (future c) = true ->
        In (future c) (cancelled (env (state w)))).
Proof.
  intros [es H].
  pose proof (callers_accounted_run es _ _ (pending_futures_boot L)
                (callers_accounted_boot L) H) as [_ A3 _ _ _].
  pose proof (pending_futures_run es _ _ (pending_futures_boot L) H)
    as [P1 P2 _ _ _ P6 _].
  rewrite Forall_forall in P2, P6.
  repeat split; auto.
  intros c Hc D. apply future_done_true in D.
  destruct D as [D|D]; [exfalso; apply (P2 c Hc D) | exact D].
Qed.

Lemma futures_resolved_once_witness :
  reachable 50 busy_cancel
  /\ NoDup (resolved (env (state busy_cancel)))
  /\ (forall f, In f (resolved (env (state busy_cancel))) ->
        ~ In f (cancelled (env (state busy_cancel))))
  /\ NoDup (map future (waitQueue (state busy_cancel)))
  /\ (forall c, In c (waitQueue (state busy_cancel)) ->
        ~ In (future c) (resolved (env (state busy_cancel))))
  /\ (forall c, In c (waitQueue (state busy_cancel)) ->
        future_done (env (state busy_cancel)) (future c) = true ->
        In (future c) (cancelled (env (state busy_cancel)))).
Proof.
  assert (reachable 50 busy_cancel) as R
    by (exists busy_cancel_trace; vm_compute; reflexivity).
  split; [exact R|]. apply (futures_resolved_once 50 busy_cancel R).
Defined.

(** X4.  The limiter itself turns no caller away and drops none: at any
    point of an execution from a fresh limiter, the callers that called
    [acquire] are those inside the scope, those that have left it, those
    that wait, and those that were cancelled while they waited. *)
Theorem callers_conserved L es w :
  run (boot L) es = Some w ->
  count is_acquire es
  = (in_scope w + count is_exit es + length (awaiting w)
     + count is_cancel es)%nat.
Proof.
  intros H.
  pose proof (callers_balance_run es _ _ (pending_futures_boot L)
                (callers_accounted_boot L) H) as B.
  simpl in B. lia.
Qed.

Lemma callers_conserved_witness :
  run (boot 50) busy_cancel_trace = Some busy_cancel
  /\ count is_acquire busy_cancel_trace
     = (in_scope busy_cancel + count is_exit busy_cancel_trace
        + length (awaiting busy_cancel)
        + count is_cancel busy_cancel_trace)%nat.
Proof.
  assert (run (boot 50) busy_cancel_trace = Some busy_cancel) as H
    by (vm_compute; reflexivity).
  split; [exact H|].
  apply (callers_conserved 50 busy_cancel_trace busy_cancel H).
Defined.

Lemma acquire_granted w p :
  available (state w) <> 0 ->
  exists w',
    step w (ev_acquire p) = Some w'
    /\ in_scope w' = S (in_scope w)
    /\ awaiting w' = awaiting w
    /\ waitQueue (state w') = waitQueue (state w)
    /\ available (state w') = available (state w) - 1.
Proof.
  destruct w as [[[l r q rs pr] [t rv cn nf ns lg]] aw n].
  unfold available, waitQueue; simpl. intros A.
  unfold acquire_enter; simpl.
  destruct (Z.eqb_spec (r - rs) 0) as [E|E]; [contradiction|]. simpl.
  eexists. split; [reflexivity|]. simpl. repeat split. lia.
Qed.

Lemma acquire_queued w p :
  available (state w) = 0 ->
  exists w' c,
    step w (ev_acquire p) = Some w'
    /\ in_scope w' = in_scope w
    /\ awaiting w' = future c :: awaiting w
    /\ waitQueue (state w') = c :: waitQueue (state w)
    /\ priority c = p
    /\ available (state w') = 0.
Proof.
  destruct w as [[[l r q rs pr] [t rv cn nf ns lg]] aw n].
  unfold available, waitQueue; simpl. intros A.
  unfold acquire_enter; simpl. rewrite A. simpl.
  eexists. exists (mkContainer p ns nf). split; [reflexivity|].
  simpl. repeat split. exact A.
Qed.

(** X5.  A burst of callers on a limiter with [n >= 0] free admissions
    ([remaining - reservedCount = n]): the first [n] callers are admitted,
    all the later ones queue, each with its own priority, and none is
    refused.  Afterwards as many admissions are free as the burst left
    over. *)
Theorem burst_fills_free_admissions ps : forall w n,
  available (state w) = Z.of_nat n ->
  exists w',
    run w (map ev_acquire ps) = Some w'
    /\ in_scope w' = (in_scope w + Nat.min n (length ps))%nat
    /\ map priority (waitQueue (state w'))
       = rev (skipn n ps) ++ map priority (waitQueue (state w))
    /\ length (waitQueue (state w'))
       = (length (waitQueue (state w)) + (length ps - n))%nat
    /\ available (state w') = Z.of_nat (n - length ps).
Proof.
  induction ps as [|p ps IH]; intros w n A.
  - exists w. simpl. rewrite skipn_nil. simpl.
    repeat split; lia.
  - destruct n as [|n].
    + destruct (acquire_queued w p A) as (w1 & c & S1 & E1 & _ & Q1 & Pc & A1).
      destruct (IH w1 0%nat A1) as (w' & R & E & M & Len & A').
      exists w'. split; [cbn [map]; rewrite run_cons, S1; exact R|].
      rewrite E, E1, M, Len, Q1, A'. simpl. rewrite Pc, <- app_assoc. simpl.
      repeat split; lia.
    + destruct (acquire_granted w p) as (w1 & S1 & E1 & _ & Q1 & A1);
        [rewrite A; lia|].
      assert (available (state w1) = Z.of_nat n) as A1' by lia.
      destruct (IH w1 n A1') as (w' & R & E & M & Len & A').
      exists w'. split; [cbn [map]; rewrite run_cons, S1; exact R|].
      rewrite E, E1, M, Len, Q1, A'. simpl. repeat split; lia.
Qed.

Lemma burst_fills_free_admissions_witness :
  available (state (boot 50)) = Z.of_nat 50
  /\ exists w',
       run (boot 50) (map ev_acquire (repeat 7 52)) = Some w'
       /\ in_scope w'
          = (in_scope (boot 50) + Nat.min 50 (length (repeat 7 52)))%nat
       /\ map priority (waitQueue (state w'))
          = rev (skipn 50 (repeat 7 52))
            ++ map priority (waitQueue (state (boot 50)))
       /\ length (waitQueue (state w'))
          = (length (waitQueue (state (boot 50)))
             + (length (repeat 7 52) - 50))%nat
       /\ available (state w') = Z.of_nat (50 - length (repeat 7 52)).
Proof.
  split; [reflexivity|].
  apply (burst_fills_free_admissions (repeat 7 52) (boot 50) 50%nat).
  reflexivity.
Defined.

(** X6.  Once more callers are inside the scope than [remaining] allows
    ([remaining - reservedCount < 0]), the gate stops nobody: every
    caller of a burst of any length is admitted at once and nothing is
    queued. *)
Theorem overbooked_admits_everyone ps : forall w,
  available (state w) < 0 ->
  exists w',
    run w (map ev_acquire ps) = Some w'
    /\ in_scope w' = (in_scope w + length ps)%nat
    /\ awaiting w' = awaiting w
    /\ waitQueue (state w') = waitQueue (state w)
    /\ available (state w') = available (state w) - Z.of_nat (length ps).
Proof.
  induction ps as [|p ps IH]; intros w A.
  - exists w. simpl. repeat split; lia.
  - destruct (acquire_granted w p) as (w1 & S1 & E1 & W1 & Q1 & A1); [lia|].
    destruct (IH w1) as (w' & R & E & W' & Q' & A'); [lia|].
    exists w'. split; [cbn [map]; rewrite run_cons, S1; exact R|].
    rewrite E, E1, W', W1, Q', Q1, A', A1. simpl. repeat split; lia.
Qed.

Lemma overbooked_admits_everyone_witness :
  available (state crowded) < 0
  /\ exists w',
       run crowded (map ev_acquire [4; 0; 9]) = Some w'
       /\ in_scope w' = (in_scope crowded + length [4; 0; 9])%nat
       /\ awaiting w' = awaiting crowded
       /\ waitQueue (state w') = waitQueue (state crowded)
       /\ available (state w')
          = available (state crowded) - Z.of_nat (length [4; 0; 9]).
Proof.
  assert (available (state crowded) < 0) as A by (vm_compute; reflexivity).
  split; [exact A|].
  apply (overbooked_admits_everyone [4; 0; 9] crowded A).
Defined.

(** In an execution of the limiter of capacity 1, [crowded] is reached. *)
Lemma crowded_reached : reachable 1 crowded.
Proof.
  exists [ev_acquire 0; ev_acquire 0; ev_acquire 0; ev_exit; ev_timer].
  vm_compute. reflexivity.
Qed.

Lemma remaining_step w e w' :
  is_timer e = false -> step w e = Some w' ->
  remaining (self (state w'))
  = remaining (self (state w)) - (if is_exit e then 1 else 0).
Proof.
  destruct w as [[[l r q rs pr] [t rv cn nf ns lg]] aw n].
  destruct e; simpl; try discriminate; intros _.
  - unfold acquire_enter; simpl.
    destruct (r - rs =? 0); simpl; intros H; injection H as <-; simpl; lia.
  - destruct (mem f aw && mem f rv); [|discriminate].
    intros H; injection H as <-; simpl; lia.
  - destruct n as [|n]; [discriminate|].
    intros H; injection H as <-. unfold acquire_exit; simpl.
    destruct pr; simpl; lia.
  - intros H; injection H as <-; simpl; lia.
  - destruct (mem f aw); [|discriminate].
    intros H; injection H as <-. unfold cancel_waiter; simpl.
    destruct (future_done _ f); simpl; lia.
Qed.

(** X7.  [remaining] counts completions, not admissions: over any stretch
    of an execution in which the timer does not fire, [remaining] goes
    down by exactly the number of callers that left the scope; admissions,
    queueing, resumptions and [update] do not move it. *)
Theorem remaining_counts_exits es : forall w w',
  run w es = Some w' ->
  count is_timer es = 0%nat ->
  remaining (self (state w'))
  = remaining (self (state w)) - Z.of_nat (count is_exit es).
Proof.
  induction es as [|e es IH]; intros w w' H T; simpl in H.
  - injection H as <-. unfold count; simpl. lia.
  - destruct (step w e) as [w1|] eqn:S1; [|discriminate].
    rewrite count_cons in T. rewrite count_cons.
    destruct (is_timer e) eqn:Te; [simpl in T; lia|].
    rewrite (IH _ _ H T), (remaining_step _ _ _ Te S1).
    destruct (is_exit e); lia.
Qed.

Lemma remaining_counts_exits_witness :
  run (boot 2) short_trace = Some short_world
  /\ count is_timer short_trace = 0%nat
  /\ remaining (self (state short_world))
     = remaining (self (state (boot 2)))
       - Z.of_nat (count is_exit short_trace).
Proof.
  assert (run (boot 2) short_trace = Some short_world) as H
    by (vm_compute; reflexivity).
  assert (count is_timer short_trace = 0%nat) as T by reflexivity.
  split; [exact H|]. split; [exact T|].
  apply (remaining_counts_exits short_trace (boot 2) short_world H T).
Defined.

(** X8.  In every execution the limit stays the one the limiter was
    constructed with, and [remaining] never exceeds the larger of that
    limit and the constructor's initial 50. *)
Theorem limit_is_never_written L w :
  reachable L w ->
  limit (self (state w)) = L
  /\ remaining (self (state w)) <= Z.max 50 L.
Proof.
  intros [es H].
  pose proof (budget_kept_run L es _ _ (budget_kept_boot L) H) as [B1 B2 _].
  split; assumption.
Qed.

Lemma limit_is_never_written_witness :
  reachable 50 busy
  /\ limit (self (state busy)) = 50
  /\ remaining (self (state busy)) <= Z.max 50 50.
Proof.
  assert (reachable 50 busy) as R
    by (exists busy_trace; vm_compute; reflexivity).
  split; [exact R|]. apply (limit_is_never_written 50 busy R).
Defined.

Lemma waiters_served_step L w e w' :
  0 < L -> invariant w -> pending_futures w -> budget_kept L w ->
  cancelled (env (state w)) = [] -> waiters_served w ->
  is_cancel e = false -> step w e = Some w' ->
  waiters_served w' /\ cancelled (env (state w')) = [].
Proof.
  intros HL I PF B Cn W Ne S1.
  destruct e; try discriminate.
  - destruct I as [I1 I2 _ _]. destruct B as [_ _ B3].
    unfold waiters_served in *. rewrite I2 in W.
    destruct w as [[[l r q rs pr] [t rv cn nf ns lg]] aw n].
    unfold pendingReset, reservedCount, waitQueue in *; simpl in *.
    unfold acquire_enter in S1; simpl in S1.
    destruct (Z.eqb_spec (r - rs) 0) as [E|E]; simpl in S1;
      injection S1 as <-; simpl; (split; [|exact Cn]); intros _;
      [|right; lia].
    subst t. destruct pr; [left; reflexivity|]. right.
    destruct (B3 eq_refl); lia.
  - unfold waiters_served in *.
    destruct w as [[[l r q rs pr] [t rv cn nf ns lg]] aw n].
    simpl in *.
    destruct (mem f aw && mem f rv); [|discriminate].
    injection S1 as <-. simpl. split; [|exact Cn]. intros _. right. lia.
  - unfold waiters_served in *. destruct I as [_ I2 _ _].
    destruct w as [[[l r q rs pr] [t rv cn nf ns lg]] aw n].
    unfold pendingReset in *; simpl in *.
    destruct n as [|n]; [discriminate|].
    injection S1 as <-. unfold acquire_exit; simpl.
    subst t. destruct pr; simpl; (split; [|exact Cn]); intros _;
      left; reflexivity.
  - destruct I as [_ I2 _ _].
    destruct (timer_fires _ _ S1)
      as (t & ok & dropped & q' & Ht & T & _ & _ & Hq & _ & Hcn & _ & _ & _
          & _ & _ & _ & _ & C).
    assert (t = 0%nat) as ->
      by (rewrite Ht in I2; destruct (pendingReset (state w)); lia).
    split; [|rewrite Hcn; exact Cn].
    unfold waiters_served. rewrite Hq. intros Hne.
    destruct C as [(_ & _ & _ & ->)|(_ & _ & _ & bad & -> & D)].
    + left. destruct q'; [congruence | reflexivity].
    + exfalso.
      pose proof (dropped_is_cancelled _ _ _ _ PF T D) as K.
      rewrite Cn in K. exact K.
  - unfold waiters_served in *.
    destruct w as [[[l r q rs pr] [t rv cn nf ns lg]] aw n].
    simpl in *. injection S1 as <-. simpl. split; assumption.
Qed.

Lemma waiters_served_run L es : forall w w',
  0 < L -> invariant w -> pending_futures w -> budget_kept L w ->
  cancelled (env (state w)) = [] -> waiters_served w ->
  count is_cancel es = 0%nat -> run w es = Some w' ->
  waiters_served w'.
Proof.
  induction es as [|e es IH]; intros w w' HL I PF B Cn W Nc H; simpl in H.
  - injection H as <-. exact W.
  - destruct (step w e) as [w1|] eqn:S1; [|discriminate].
    rewrite count_cons in Nc.
    destruct (is_cancel e) eqn:Ce; [simpl in Nc; lia|].
    destruct (waiters_served_step L w e w1 HL I PF B Cn W Ce S1) as [W1 Cn1].
    apply IH with w1; try assumption.
    + eapply invariant_step; eassumption.
    + eapply pending_futures_step; eassumption.
    + eapply budget_kept_step; eassumption.
Qed.

(** X9.  With a positive limit, and as long as no waiting caller is
    cancelled, no queued caller is stranded: at any point of such an
    execution, whenever the queue is not empty, a replenishment timer is
    pending or some caller is inside the scope (and its exit arms the
    timer). *)
Theorem queued_callers_not_stranded L es w :
  0 < L ->
  run (boot L) es = Some w ->
  count is_cancel es = 0%nat ->
  waitQueue (state w) <> [] ->
  timers (env (state w)) = 1%nat \/ (0 < in_scope w)%nat.
Proof.
  intros HL H Nc.
  apply (waiters_served_run L es (boot L) w HL (invariant_boot L)
           (pending_futures_boot L) (budget_kept_boot L) eq_refl);
    [|exact Nc|exact H].
  intros Q. exfalso. apply Q. reflexivity.
Qed.

Lemma queued_callers_not_stranded_witness :
  0 < 50
  /\ run (boot 50) busy_trace = Some busy
  /\ count is_cancel busy_trace = 0%nat
  /\ waitQueue (state busy) <> []
  /\ (timers (env (state busy)) = 1%nat \/ (0 < in_scope busy)%nat).
Proof.
  assert (0 < 50) as HL by lia.
  assert (run (boot 50) busy_trace = Some busy) as H
    by (vm_compute; reflexivity).
  assert (count is_cancel busy_trace = 0%nat) as Nc
    by (vm_compute; reflexivity).
  assert (waitQueue (state busy) <> []) as Q by (vm_compute; discriminate).
  split; [exact HL|]. split; [exact H|]. split; [exact Nc|]. split; [exact Q|].
  apply (queued_callers_not_stranded 50 busy_trace busy HL H Nc Q).
Defined.

(** The limit has to be positive for that: with a limit of 0, a caller
    that arrives after the first replenishment queues (0 - 0 = 0) with no
    timer pending and nobody inside the scope. *)
Lemma stranded_with_zero_limit :
  exists w,
    run (boot 0) zero_trace = Some w
    /\ waitQueue (state w) <> []
    /\ timers (env (state w)) = 0%nat
    /\ in_scope w = 0%nat.
Proof.
  eexists. split; [vm_compute; reflexivity|].
  simpl. repeat split. discriminate.
Qed.

(** And no waiting caller may be cancelled: when the timer finds the entry
    of a cancelled waiter first, the exception of [set_result] skips the
    re-arming, and the caller queued behind it is left with no timer and
    nobody inside the scope. *)
Lemma stranded_after_cancellation :
  exists w,
    run (boot 50) stranding_trace = Some w
    /\ waitQueue (state w) = [mkContainer 0 1%nat 1%nat]
    /\ awaiting w = [1%nat]
    /\ timers (env (state w)) = 0%nat
    /\ in_scope w = 0%nat.
Proof.
  eexists. split; [vm_compute; reflexivity|]. repeat split.
Qed.

Lemma release_only_by_timer_step w e w' :
  is_timer e = false -> step w e = Some w' ->
  resolved (env (state w')) = resolved (env (state w))
  /\ exists added, waitQueue (state w') = added ++ waitQueue (state w).
Proof.
  destruct w as [[[l r q rs pr] [t rv cn nf ns lg]] aw n].
  unfold waitQueue.
  destruct e; simpl; try discriminate; intros _.
  - unfold acquire_enter; simpl.
    destruct (r - rs =? 0); simpl; intros H; injection H as <-; simpl;
      split; try reflexivity.
    + exists [mkContainer priority0 ns nf]. reflexivity.
    + exists []. reflexivity.
  - destruct (mem f aw && mem f rv); [|discriminate].
    intros H; injection H as <-; simpl. split; [reflexivity|].
    exists []. reflexivity.
  - destruct n as [|n]; [discriminate|].
    intros H; injection H as <-. unfold acquire_exit; simpl.
    destruct pr; simpl; (split; [reflexivity | exists []; reflexivity]).
  - intros H; injection H as <-; simpl. split; [reflexivity|].
    exists []. reflexivity.
  - destruct (mem f aw); [|discriminate].
    intros H; injection H as <-. unfold cancel_waiter; simpl.
    destruct (future_done _ f); simpl;
      (split; [reflexivity | exists []; reflexivity]).
Qed.

(** X10.  Only the replenishment callback releases queued callers: over
    any stretch of an execution in which the timer does not fire, no
    future gets a result and no entry leaves the queue (it only grows),
    however many callers leave the scope meanwhile. *)
Theorem release_only_by_timer es : forall w w',
  run w es = Some w' ->
  count is_timer es = 0%nat ->
  resolved (env (state w')) = resolved (env (state w))
  /\ exists added, waitQueue (state w') = added ++ waitQueue (state w).
Proof.
  induction es as [|e es IH]; intros w w' H T; simpl in H.
  - injection H as <-. split; [reflexivity | exists []; reflexivity].
  - destruct (step w e) as [w1|] eqn:S1; [|discriminate].
    rewrite count_cons in T.
    destruct (is_timer e) eqn:Te; [simpl in T; lia|].
    destruct (release_only_by_timer_step _ _ _ Te S1) as (R1 & a1 & Q1).
    destruct (IH _ _ H T) as (R2 & a2 & Q2).
    split; [congruence|]. exists (a2 ++ a1).
    rewrite Q2, Q1. apply app_assoc.
Qed.

(** Two callers are queued; three callers leave the scope and one more
    caller queues; the two are still queued and nothing was released. *)
Lemma release_only_by_timer_witness :
  run two_queued [ev_exit; ev_exit; ev_acquire 6; ev_exit]
    = Some still_waiting
  /\ count is_timer [ev_exit; ev_exit; ev_acquire 6; ev_exit] = 0%nat
  /\ resolved (env (state still_waiting)) = resolved (env (state two_queued))
  /\ exists added,
       waitQueue (state still_waiting)
       = added ++ waitQueue (state two_queued).
Proof.
  assert (run two_queued [ev_exit; ev_exit; ev_acquire 6; ev_exit]
          = Some still_waiting) as H by (vm_compute; reflexivity).
  assert (count is_timer [ev_exit; ev_exit; ev_acquire 6; ev_exit] = 0%nat)
    as T by reflexivity.
  split; [exact H|]. split; [exact T|].
  apply (release_only_by_timer [ev_exit; ev_exit; ev_acquire 6; ev_exit]
           two_queued still_waiting H T).
Defined.

(** The worlds of that witness: two entries are queued before, three
    after, and no future has a result. *)
Example release_only_by_timer_worlds :
  reachable 50 two_queued
  /\ map priority (waitQueue (state two_queued)) = [1; 2]
  /\ map priority (waitQueue (state still_waiting)) = [6; 1; 2]
  /\ in_scope two_queued = 50%nat
  /\ in_scope still_waiting = 47%nat
  /\ resolved (env (state still_waiting)) = [].
Proof.
  split; [|repeat split; reflexivity].
  exists (repeat (ev_acquire 0) 50 ++ [ev_acquire 2; ev_acquire 1]).
  vm_compute. reflexivity.
Qed.

(** X11.  When the limit leaves room for all the queued callers (the
    queue is no longer than [limit - reservedCount]) and their futures
    are pending (none was cancelled while it queued), the replenishment
    callback releases every one of them, leaves the queue empty and does
    not arm the timer again. *)
Theorem reset_with_room_drains_queue st :
  PriorityQueue.qsize (waitQueue st) <= limit (self st) - reservedCount st ->
  NoDup (map future (waitQueue st)) ->
  Forall (pending (env st)) (waitQueue st) ->
  exists st' cs,
    _reset st = (Returned tt, st')
    /\ Permutation (waitQueue st) cs
    /\ resolved (env st') = resolved (env st) ++ map future cs
    /\ waitQueue st' = []
    /\ pendingReset st' = false
    /\ timers (env st') = timers (env st)
    /\ remaining (self st') = limit (self st).
Proof.
  intros Room N P.
  destruct (take_total (range_len (to_release st)) (waitQueue st)
              (range_len_to_release st)) as (cs & q' & T).
  pose proof (take_length _ _ _ _ T) as [_ Lq].
  pose proof (take_perm _ _ _ _ T) as Pm.
  assert (range_len (to_release st) = length (waitQueue st)) as E.
  { unfold range_len, to_release, waitQueue, reservedCount,
      PriorityQueue.qsize in *. lia. }
  rewrite E in Lq.
  assert (q' = []) as -> by (destruct q'; [reflexivity | simpl in Lq; lia]).
  rewrite app_nil_r in Pm.
  assert (_reset st = (Returned tt, after_reset cs [] st)) as R.
  { apply _reset_returns; [exact T| |].
    - eapply Permutation_NoDup; [|exact N]. apply Permutation_map. exact Pm.
    - rewrite Forall_forall in *. intros c Hc. apply P.
      eapply Permutation_in; [apply Permutation_sym; exact Pm | exact Hc]. }
  exists (after_reset cs [] st), cs. split; [exact R|].
  split; [exact Pm|]. repeat split.
Qed.

Lemma reset_with_room_drains_queue_witness :
  PriorityQueue.qsize (waitQueue roomy)
    <= limit (self roomy) - reservedCount roomy
  /\ NoDup (map future (waitQueue roomy))
  /\ Forall (pending (env roomy)) (waitQueue roomy)
  /\ exists st' cs,
       _reset roomy = (Returned tt, st')
       /\ Permutation (waitQueue roomy) cs
       /\ resolved (env st') = resolved (env roomy) ++ map future cs
       /\ waitQueue st' = []
       /\ pendingReset st' = false
       /\ timers (env st') = timers (env roomy)
       /\ remaining (self st') = limit (self roomy).
Proof.
  assert (PriorityQueue.qsize (waitQueue roomy)
            <= limit (self roomy) - reservedCount roomy) as Room
    by (vm_compute; discriminate).
  assert (NoDup (map future (waitQueue roomy))) as N.
  { simpl. constructor; [simpl; intros [H|[]]; discriminate|].
    constructor; [simpl; tauto | constructor]. }
  assert (Forall (pending (env roomy)) (waitQueue roomy)) as P.
  { constructor; [reflexivity|]. constructor; [reflexivity | constructor]. }
  split; [exact Room|]. split; [exact N|]. split; [exact P|].
  apply (reset_with_room_drains_queue roomy Room N P).
Defined.
